(** * IncExpectationExample: the Roszypal-Schlaffman experiment

    A shallow embedding of [notebooks/IncExpectationExample.ipynb]:
    the consumer subclass [PersistentShockConsumerTypeX] with its
    [getControls] method, the baseline dictionary, and the experiment
    function [runRoszypalSchlaffmanExperiment] with its aggregation of
    the simulated cross section (wealth ratio, Lorenz curve, Gini
    coefficient, average MPC by income quintile).

    Numbers.  The notebook computes with IEEE doubles.  Here a double is
    an exact rational or one of the three special values (+inf, -inf,
    nan): rounding is left out, the special values and the way numpy
    produces them (division by zero gives inf or nan together with a
    warning, never an exception) are kept. *)

From Stdlib Require Import QArith Qround Qabs ZArith NArith List Bool Arith Lia Lqa.
From Stdlib Require Import Permutation Sorted.
From Stdlib Require String Ascii DecimalString.
Import ListNotations.

Local Open Scope Q_scope.

(** ** Python exceptions as results *)

Inductive exn : Type :=
| IndexError
| ValueError.

Inductive result (A : Type) : Type :=
| Ok (a : A)
| Raise (e : exn).

Arguments Ok {A} a.
Arguments Raise {A} e.

Definition bind {A B : Type} (m : result A) (k : A -> result B) : result B :=
  match m with
  | Ok a => k a
  | Raise e => Raise e
  end.

Notation "x <- m ;; k" := (bind m (fun x => k))
  (at level 61, m at next level, right associativity).

(** ** numpy: doubles, arrays and the operations the notebook uses *)

Inductive npfloat : Type :=
| Fin (q : Q)
| PInf
| NInf
| NaN.

(** The same double, reading rationals up to [Qeq]. *)
Definition feq (x y : npfloat) : Prop :=
  match x, y with
  | Fin a, Fin b => a == b
  | PInf, PInf => True
  | NInf, NInf => True
  | NaN, NaN => True
  | _, _ => False
  end.

Definition is_finite (x : npfloat) : bool :=
  match x with Fin _ => true | _ => false end.

Definition fneg (x : npfloat) : npfloat :=
  match x with
  | Fin a => Fin (- a)
  | PInf => NInf
  | NInf => PInf
  | NaN => NaN
  end.

Definition fadd (x y : npfloat) : npfloat :=
  match x, y with
  | NaN, _ | _, NaN => NaN
  | Fin a, Fin b => Fin (a + b)
  | PInf, NInf | NInf, PInf => NaN
  | PInf, _ | _, PInf => PInf
  | NInf, _ | _, NInf => NInf
  end.

Definition fsub (x y : npfloat) : npfloat := fadd x (fneg y).

(** The infinity of the sign of [q]; nan when [q] is zero. *)
Definition inf_of_sign (q : Q) : npfloat :=
  match q ?= 0 with
  | Gt => PInf
  | Lt => NInf
  | Eq => NaN
  end.

Definition fmul (x y : npfloat) : npfloat :=
  match x, y with
  | NaN, _ | _, NaN => NaN
  | Fin a, Fin b => Fin (a * b)
  | Fin a, PInf | PInf, Fin a => inf_of_sign a
  | Fin a, NInf | NInf, Fin a => inf_of_sign (- a)
  | PInf, PInf | NInf, NInf => PInf
  | PInf, NInf | NInf, PInf => NInf
  end.

(** Division of doubles: a zero divisor raises nothing, the quotient is
    an infinity, or nan for 0/0. *)
Definition fdiv (x y : npfloat) : npfloat :=
  match x, y with
  | NaN, _ | _, NaN => NaN
  | Fin a, Fin b => if Qeq_bool b 0 then inf_of_sign a else Fin (a / b)
  | Fin _, _ => Fin 0
  | PInf, Fin b => if Qle_bool 0 b then PInf else NInf
  | NInf, Fin b => if Qle_bool 0 b then NInf else PInf
  | _, _ => NaN
  end.

(** [x <= y] on doubles; every comparison with nan is false. *)
Definition fle (x y : npfloat) : Prop :=
  match x, y with
  | NaN, _ | _, NaN => False
  | Fin a, Fin b => a <= b
  | NInf, _ => True
  | _, PInf => True
  | _, _ => False
  end.

Definition Qsum (l : list Q) : Q := fold_right Qplus 0 l.

Definition Qlen {A : Type} (l : list A) : Q := inject_Z (Z.of_nat (length l)).

(** [np.mean] of a 1-D array: sum over size, so nan on an empty array. *)
Definition np_mean (l : list Q) : npfloat :=
  fdiv (Fin (Qsum l)) (Fin (Qlen l)).

(** [np.mean] of a 0-D value (a scalar) is that value. *)
Definition np_mean_scalar (x : npfloat) : npfloat := x.

(** [np.linspace(start, stop, num)]. *)
Definition np_linspace (start stop : Q) (num : nat) : list Q :=
  let step := (stop - start) / inject_Z (Z.of_nat (num - 1)) in
  map (fun i => start + inject_Z (Z.of_nat i) * step) (seq 0 num).

(** [np.concatenate] of a list of 1-D arrays; an empty list of arrays is
    a ValueError. *)
Definition np_concatenate {A : Type} (arrays : list (list A)) : result (list A) :=
  match arrays with
  | [] => Raise ValueError
  | _ => Ok (concat arrays)
  end.

(** [a[i]] for a non-negative index. *)
Definition np_item {A : Type} (a : list A) (i : nat) : result A :=
  match nth_error a i with
  | Some x => Ok x
  | None => Raise IndexError
  end.

(** [np.stack((a, b))] of two 1-D arrays: they must have one shape. *)
Definition np_stack2 {A : Type} (a b : list A) : result (list (list A)) :=
  if Nat.eqb (length a) (length b) then Ok [a; b] else Raise ValueError.

(** The shape of a 2-D array given as its rows. *)
Definition shape2 {A : Type} (rows : list (list A)) : nat * nat :=
  (length rows, match rows with [] => 0%nat | r :: _ => length r end).

(** [a[mask]] for a boolean mask: the mask must be as long as the array. *)
Fixpoint select {A : Type} (a : list A) (mask : list bool) : list A :=
  match a, mask with
  | x :: a', b :: mask' => if b then x :: select a' mask' else select a' mask'
  | _, _ => []
  end.

Definition np_getmask {A : Type} (a : list A) (mask : list bool) : result (list A) :=
  if Nat.eqb (length a) (length mask) then Ok (select a mask) else Raise IndexError.

(** [a[mask] = vals]: the masked places take the values in order. *)
Fixpoint assign {A : Type} (a : list A) (mask : list bool) (vals : list A) : list A :=
  match a, mask with
  | x :: a', b :: mask' =>
      if b then
        match vals with
        | v :: vals' => v :: assign a' mask' vals'
        | [] => x :: assign a' mask' []
        end
      else x :: assign a' mask' vals
  | _, _ => a
  end.

Definition count_true (mask : list bool) : nat := length (filter id mask).

Definition np_setmask {A : Type} (a : list A) (mask : list bool) (vals : list A)
  : result (list A) :=
  if negb (Nat.eqb (length a) (length mask)) then Raise IndexError
  else if negb (Nat.eqb (length vals) (count_true mask)) then Raise ValueError
  else Ok (assign a mask vals).

(** A function of two arguments called on two arrays, element by element. *)
Fixpoint zip_with {A B C : Type} (f : A -> B -> C) (xs : list A) (ys : list B) : list C :=
  match xs, ys with
  | x :: xs', y :: ys' => f x y :: zip_with f xs' ys'
  | _, _ => []
  end.

(** Sorting ascending by a rational key: insertion from the right, so
    that equal keys keep the order they had in the input. *)
Fixpoint insert_by {A : Type} (key : A -> Q) (x : A) (l : list A) : list A :=
  match l with
  | [] => [x]
  | h :: t => if Qle_bool (key x) (key h) then x :: l else h :: insert_by key x t
  end.

Fixpoint sort_by {A : Type} (key : A -> Q) (l : list A) : list A :=
  match l with
  | [] => []
  | x :: t => insert_by key x (sort_by key t)
  end.

Definition np_sort (l : list Q) : list Q := sort_by (fun x => x) l.

(** ** HARK: the helpers the notebook imports *)

(** Modelled from the spec: [HARK.distribution.Uniform(bot, top).approx(N).X]
    is not part of the repository.  The ensemble is the deterministic
    equiprobable approximation of [Uniform(bot, top)]: [N] nodes in
    ascending order, the midpoints of [N] bins of equal width, hence
    symmetric about the centre of the interval and inside it. *)
Definition Uniform_approx_X (bot top : Q) (N : nat) : list Q :=
  let center := (top + bot) / 2 in
  let width := (top - bot) / 2 in
  let n := inject_Z (Z.of_nat N) in
  map (fun x => center + width * x / (n / 2))
      (np_linspace (- (n - 1) / 2) ((n - 1) / 2) N).

(** The number of agents at or below percentile [p] among [N]. *)
Definition rank_of (p : Q) (N : nat) : nat :=
  Z.to_nat (Qceiling (p * inject_Z (Z.of_nat N))).

(** Modelled from the spec: one value of [HARK.utilities.getLorenzShares],
    which is not part of the repository.  The share at percentile [p] is
    the sum of the asset levels of the bottom [ceil(p*N)] agents, the
    agents taken in ascending order of assets, divided by the sum of all
    assets. *)
Definition lorenz_share (data : list Q) (p : Q) : npfloat :=
  let data_sorted := np_sort data in
  let total := Qsum data in
  fdiv (Fin (Qsum (firstn (rank_of p (length data)) data_sorted))) (Fin total).

(** Modelled from the spec: [HARK.utilities.getLorenzShares] is not part
    of the repository; the shares at the given percentiles, in order. *)
Definition getLorenzShares (data : list Q) (percentiles : list Q) : list npfloat :=
  map (lorenz_share data) percentiles.

(** The slice [a[bot:top]]. *)
Definition slice {A : Type} (a : list A) (bot top : nat) : list A :=
  firstn (top - bot) (skipn bot a).

(** The sum and the mean of an array of doubles. *)
Definition fsum (l : list npfloat) : npfloat := fold_right fadd (Fin 0) l.

Definition np_fmean (l : list npfloat) : npfloat :=
  fdiv (fsum l) (Fin (Qlen l)).

(** Modelled from the spec: [HARK.utilities.calcSubpopAvg] is not part of
    the repository.  The agents are ordered ascending by the reference
    variable (ties keep their input order) and each pair of cutoffs
    [(lo, hi)] selects the agents of rank above [ceil(lo*N)] up to
    [ceil(hi*N)]; the result is the mean of the data over each group. *)
Definition calcSubpopAvg (data : list npfloat) (reference : list Q)
  (cutoffs : list (Q * Q)) : list npfloat :=
  let data_sorted := map fst (sort_by snd (combine data reference)) in
  let N := length data_sorted in
  map (fun c => np_fmean (slice data_sorted (rank_of (fst c) N) (rank_of (snd c) N)))
      cutoffs.

(** The consumption function of one period, as the solver returns it:
    callable at (cash on hand, permanent income), with its partial
    derivative in the first argument. *)
Record CFunc : Type := {
  call : Q -> Q -> Q;
  derivativeX : Q -> Q -> Q
}.

Record Solution : Type := { cFunc : CFunc }.

(** The calls made on a consumer type, in the order they are made. *)
Inductive Event : Type :=
| EvConstruct (DiscFac PrstIncCorr : Q)
| EvSetPrstIncCorr (v : Q)
| EvUpdatepLvlNextFunc
| EvSolve
| EvSetT_sim (n : nat)
| EvInitializeSim
| EvSimulate.

(** An instance of [PersistentShockConsumerType]: the attributes the
    notebook reads or writes, and the calls it has received. *)
Record AgentType : Type := {
  DiscFac : Q;
  PrstIncCorr : Q;
  AgentCount : nat;
  T_cycle : nat;
  T_sim : nat;
  pLvlNextFunc : Q -> Q;
  solution : list Solution;
  t_cycle : list nat;
  mLvlNow : list Q;
  pLvlNow : list Q;
  aLvlNow : list Q;
  cLvlNow : list npfloat;
  MPCnow : list npfloat;
  history : list Event
}.

(** The simulated cross section of one consumer type. *)
#[projections(primitive)]
Record SimState : Type := {
  sim_t_cycle : list nat;
  sim_mLvlNow : list Q;
  sim_pLvlNow : list Q;
  sim_aLvlNow : list Q;
  sim_cLvlNow : list npfloat;
  sim_MPCnow : list npfloat
}.

(** Modelled from the spec: the decision and simulation engine of HARK is
    not part of the repository.  It is taken as given: what
    [updatepLvlNextFunc] caches for a persistence, what [solve] attaches
    for a discount factor and a belief about next period's permanent
    income, what [initializeSim] sets up and what [simulate] leaves after
    the configured number of periods. *)
Record Engine : Type := {
  make_pLvlNextFunc : Q -> (Q -> Q);
  solve_model : Q -> Q -> (Q -> Q) -> list Solution;
  init_sim : nat -> SimState;
  run_sim : Q -> Q -> (Q -> Q) -> list Solution -> nat -> SimState -> SimState
}.

(** The configuration dictionary: the keys the notebook overwrites or
    reads; the other keys of [BaselineDict] are read by HARK only. *)
Record Dict : Type := {
  key_DiscFac : Q;
  key_PrstIncCorr : Q;
  key_AgentCount : nat;
  key_T_cycle : nat;
  key_T_sim : nat
}.

Definition BaselineDict : Dict := {|
  key_DiscFac := 97 # 100;
  key_PrstIncCorr := 99 # 100;
  key_AgentCount := 10000;
  key_T_cycle := 1;
  key_T_sim := 1200
|}.

Definition copy (d : Dict) : Dict := d.

Definition setitem_PrstIncCorr (d : Dict) (v : Q) : Dict :=
  {| key_DiscFac := key_DiscFac d; key_PrstIncCorr := v;
     key_AgentCount := key_AgentCount d; key_T_cycle := key_T_cycle d;
     key_T_sim := key_T_sim d |}.

Definition setitem_DiscFac (d : Dict) (v : Q) : Dict :=
  {| key_DiscFac := v; key_PrstIncCorr := key_PrstIncCorr d;
     key_AgentCount := key_AgentCount d; key_T_cycle := key_T_cycle d;
     key_T_sim := key_T_sim d |}.

(** ** The consumer type and the calls the notebook makes on it *)

Section WithEngine.

Context (E : Engine).

(** Modelled from the spec: the constructor is inherited from HARK.  It
    takes the attributes from the dictionary and caches the function of
    expected next-period permanent income for the dictionary's
    persistence; nothing is solved or simulated yet. *)
Definition PersistentShockConsumerTypeX (d : Dict) : AgentType := {|
  DiscFac := key_DiscFac d;
  PrstIncCorr := key_PrstIncCorr d;
  AgentCount := key_AgentCount d;
  T_cycle := key_T_cycle d;
  T_sim := key_T_sim d;
  pLvlNextFunc := make_pLvlNextFunc E (key_PrstIncCorr d);
  solution := [];
  t_cycle := [];
  mLvlNow := [];
  pLvlNow := [];
  aLvlNow := [];
  cLvlNow := [];
  MPCnow := [];
  history := [EvConstruct (key_DiscFac d) (key_PrstIncCorr d)]
|}.

(** [self.PrstIncCorr = v] *)
Definition set_PrstIncCorr (self : AgentType) (v : Q) : AgentType := {|
  DiscFac := DiscFac self; PrstIncCorr := v; AgentCount := AgentCount self;
  T_cycle := T_cycle self; T_sim := T_sim self;
  pLvlNextFunc := pLvlNextFunc self; solution := solution self;
  t_cycle := t_cycle self; mLvlNow := mLvlNow self; pLvlNow := pLvlNow self;
  aLvlNow := aLvlNow self; cLvlNow := cLvlNow self; MPCnow := MPCnow self;
  history := history self ++ [EvSetPrstIncCorr v]
|}.

(** [self.T_sim = n] *)
Definition set_T_sim (self : AgentType) (n : nat) : AgentType := {|
  DiscFac := DiscFac self; PrstIncCorr := PrstIncCorr self;
  AgentCount := AgentCount self; T_cycle := T_cycle self; T_sim := n;
  pLvlNextFunc := pLvlNextFunc self; solution := solution self;
  t_cycle := t_cycle self; mLvlNow := mLvlNow self; pLvlNow := pLvlNow self;
  aLvlNow := aLvlNow self; cLvlNow := cLvlNow self; MPCnow := MPCnow self;
  history := history self ++ [EvSetT_sim n]
|}.

(** Modelled from the spec: [updatepLvlNextFunc] recomputes the cached
    function from the persistence the instance holds at the call. *)
Definition updatepLvlNextFunc (self : AgentType) : AgentType := {|
  DiscFac := DiscFac self; PrstIncCorr := PrstIncCorr self;
  AgentCount := AgentCount self; T_cycle := T_cycle self; T_sim := T_sim self;
  pLvlNextFunc := make_pLvlNextFunc E (PrstIncCorr self);
  solution := solution self;
  t_cycle := t_cycle self; mLvlNow := mLvlNow self; pLvlNow := pLvlNow self;
  aLvlNow := aLvlNow self; cLvlNow := cLvlNow self; MPCnow := MPCnow self;
  history := history self ++ [EvUpdatepLvlNextFunc]
|}.

(** Modelled from the spec: [solve] attaches the decision rule computed
    from the attributes and the cached function held at the call. *)
Definition solve (self : AgentType) : AgentType := {|
  DiscFac := DiscFac self; PrstIncCorr := PrstIncCorr self;
  AgentCount := AgentCount self; T_cycle := T_cycle self; T_sim := T_sim self;
  pLvlNextFunc := pLvlNextFunc self;
  solution := solve_model E (DiscFac self) (PrstIncCorr self) (pLvlNextFunc self);
  t_cycle := t_cycle self; mLvlNow := mLvlNow self; pLvlNow := pLvlNow self;
  aLvlNow := aLvlNow self; cLvlNow := cLvlNow self; MPCnow := MPCnow self;
  history := history self ++ [EvSolve]
|}.

Definition load_state (self : AgentType) (s : SimState) (ev : Event) : AgentType := {|
  DiscFac := DiscFac self; PrstIncCorr := PrstIncCorr self;
  AgentCount := AgentCount self; T_cycle := T_cycle self; T_sim := T_sim self;
  pLvlNextFunc := pLvlNextFunc self; solution := solution self;
  t_cycle := sim_t_cycle s; mLvlNow := sim_mLvlNow s; pLvlNow := sim_pLvlNow s;
  aLvlNow := sim_aLvlNow s; cLvlNow := sim_cLvlNow s; MPCnow := sim_MPCnow s;
  history := history self ++ [ev]
|}.

Definition state_of (self : AgentType) : SimState := {|
  sim_t_cycle := t_cycle self; sim_mLvlNow := mLvlNow self;
  sim_pLvlNow := pLvlNow self; sim_aLvlNow := aLvlNow self;
  sim_cLvlNow := cLvlNow self; sim_MPCnow := MPCnow self
|}.

(** Modelled from the spec: [initializeSim] resets the simulation state. *)
Definition initializeSim (self : AgentType) : AgentType :=
  load_state self (init_sim E (AgentCount self)) EvInitializeSim.

(** Modelled from the spec: [simulate] advances the state [T_sim] periods
    with the decision rule, the persistence and the cached function the
    instance holds at the call. *)
Definition simulate (self : AgentType) : AgentType :=
  load_state self
    (run_sim E (DiscFac self) (PrstIncCorr self) (pLvlNextFunc self)
       (solution self) (T_sim self) (state_of self))
    EvSimulate.

End WithEngine.

(** [self.cLvlNow = c; self.MPCnow = m] *)
Definition set_controls (self : AgentType) (c m : list npfloat) : AgentType := {|
  DiscFac := DiscFac self; PrstIncCorr := PrstIncCorr self;
  AgentCount := AgentCount self; T_cycle := T_cycle self; T_sim := T_sim self;
  pLvlNextFunc := pLvlNextFunc self; solution := solution self;
  t_cycle := t_cycle self; mLvlNow := mLvlNow self; pLvlNow := pLvlNow self;
  aLvlNow := aLvlNow self; cLvlNow := c; MPCnow := m;
  history := history self
|}.

(** [for t in range(n): acc = body(t, acc)], stopping at the first
    exception. *)
Fixpoint for_each {S : Type} (ts : list nat) (body : nat -> S -> result S) (acc : S)
  : result S :=
  match ts with
  | [] => Ok acc
  | t :: ts' => acc' <- body t acc ;; for_each ts' body acc'
  end.

Definition for_range {S : Type} (n : nat) (body : nat -> S -> result S) (acc : S)
  : result S :=
  for_each (seq 0 n) body acc.

(** One pass of the loop of [getControls], for period [t]. *)
Definition getControls_step (self : AgentType) (t : nat)
  (acc : list npfloat * list npfloat) : result (list npfloat * list npfloat) :=
  let '(cLvlNow, MPCnow) := acc in
  let these := map (Nat.eqb t) (t_cycle self) in
  sol <- np_item (solution self) t ;;
  m <- np_getmask (mLvlNow self) these ;;
  p <- np_getmask (pLvlNow self) these ;;
  cLvlNow' <- np_setmask cLvlNow these (map Fin (zip_with (call (cFunc sol)) m p)) ;;
  sol <- np_item (solution self) t ;;
  m <- np_getmask (mLvlNow self) these ;;
  p <- np_getmask (pLvlNow self) these ;;
  MPCnow' <- np_setmask MPCnow these (map Fin (zip_with (derivativeX (cFunc sol)) m p)) ;;
  Ok (cLvlNow', MPCnow').

(** [PersistentShockConsumerTypeX.getControls] *)
Definition getControls (self : AgentType) : result AgentType :=
  let cLvlNow := repeat NaN (AgentCount self) in
  let MPCnow := repeat NaN (AgentCount self) in
  acc <- for_range (T_cycle self) (getControls_step self) (cLvlNow, MPCnow) ;;
  Ok (set_controls self (fst acc) (snd acc)).

(** ** The experiment *)

(** The aggregate result: wealth ratio, Lorenz curve, Gini, average MPC. *)
Definition Aggregates : Type :=
  (npfloat * list (list npfloat) * npfloat * list npfloat)%type.

Definition AggWealthRatio_of (r : Aggregates) : npfloat := fst (fst (fst r)).
Definition Lorenz_of (r : Aggregates) : list (list npfloat) := snd (fst (fst r)).
Definition Gini_of (r : Aggregates) : npfloat := snd (fst r).
Definition Avg_MPC_of (r : Aggregates) : list npfloat := snd r.

Definition wealth_percentile : list Q := np_linspace (1 # 1000) (999 # 1000) 201.

Definition quintiles : list (Q * Q) :=
  [(0, 2 # 10); (2 # 10, 4 # 10); (4 # 10, 6 # 10); (6 # 10, 8 # 10); (8 # 10, 1)].

(** The second half of [runRoszypalSchlaffmanExperiment]: from the flat
    arrays of assets, MPC and permanent income to the four results. *)
Definition aggregate (aLvl_all : list Q) (MPC_all : list npfloat) (pLvl_all : list Q)
  : result Aggregates :=
  let AggWealthRatio := fdiv (np_mean aLvl_all) (np_mean pLvl_all) in
  let Lorenz_init := getLorenzShares aLvl_all wealth_percentile in
  let Lorenz_init := [Fin 0] ++ Lorenz_init ++ [Fin 1] in
  let wealth_percentile := [Fin 0] ++ map Fin wealth_percentile ++ [Fin 1] in
  Lorenz <- np_stack2 wealth_percentile Lorenz_init ;;
  x <- np_item Lorenz_init 1 ;;
  let Gini := fsub (Fin 1) (fmul (Fin 2) (np_mean_scalar x)) in
  let Avg_MPC := calcSubpopAvg MPC_all pLvl_all quintiles in
  Ok (AggWealthRatio, Lorenz, Gini, Avg_MPC).

Section Experiment.

Context (E : Engine).

(** The body of the loop over [DiscFac_list], for one discount factor. *)
Definition make_type (ThisDict : Dict) (CorrAct CorrPcvd : Q) : AgentType :=
  let ThisType := PersistentShockConsumerTypeX E ThisDict in
  let ThisType := set_PrstIncCorr ThisType CorrPcvd in
  let ThisType := updatepLvlNextFunc E ThisType in
  let ThisType := solve E ThisType in
  let ThisType := set_PrstIncCorr ThisType CorrAct in
  let ThisType := updatepLvlNextFunc E ThisType in
  let ThisType := set_T_sim ThisType 100 in
  let ThisType := initializeSim E ThisType in
  simulate E ThisType.

(** The loop: the dictionary is overwritten at each pass and the new
    type appended to [type_list]. *)
Definition types_loop (CorrAct CorrPcvd : Q) (DiscFac_list : list Q)
  (ThisDict : Dict) : Dict * list AgentType :=
  fold_left
    (fun (st : Dict * list AgentType) (beta : Q) =>
       let ThisDict := setitem_DiscFac (fst st) beta in
       (ThisDict, snd st ++ [make_type ThisDict CorrAct CorrPcvd]))
    DiscFac_list (ThisDict, []).

Definition DiscFac_ensemble (DiscFac_center DiscFac_spread : Q) : list Q :=
  Uniform_approx_X (DiscFac_center - DiscFac_spread)
                   (DiscFac_center + DiscFac_spread) 7.

Definition make_type_list (CorrAct CorrPcvd DiscFac_center DiscFac_spread : Q)
  : list AgentType :=
  let ThisDict := copy BaselineDict in
  let ThisDict := setitem_PrstIncCorr ThisDict CorrAct in
  let DiscFac_list := DiscFac_ensemble DiscFac_center DiscFac_spread in
  snd (types_loop CorrAct CorrPcvd DiscFac_list ThisDict).

Definition runRoszypalSchlaffmanExperiment
  (CorrAct CorrPcvd DiscFac_center DiscFac_spread : Q) : result Aggregates :=
  let type_list := make_type_list CorrAct CorrPcvd DiscFac_center DiscFac_spread in
  cLvl_all <- np_concatenate (map cLvlNow type_list) ;;
  aLvl_all <- np_concatenate (map aLvlNow type_list) ;;
  MPC_all <- np_concatenate (map MPCnow type_list) ;;
  pLvl_all <- np_concatenate (map pLvlNow type_list) ;;
  aggregate aLvl_all MPC_all pLvl_all.

(** The calls of the whole experiment in the order they are made: the
    loop is sequential and each type receives all its calls inside its
    own pass. *)
Definition experiment_log (type_list : list AgentType) : list Event :=
  concat (map history type_list).

End Experiment.

(** ** A small engine, for running the definitions on concrete inputs *)

(** Two agents per type; the richer agent's assets grow with patience. *)
Definition toy_engine : Engine := {|
  make_pLvlNextFunc := fun corr p => corr * p;
  solve_model := fun beta corr f =>
    [{| cFunc := {| call := fun m p => (1 - beta) * m + corr * p;
                    derivativeX := fun m p => 1 - beta |} |}];
  init_sim := fun n => {|
    sim_t_cycle := [0%nat; 0%nat]; sim_mLvlNow := [1; 1]; sim_pLvlNow := [1; 1];
    sim_aLvlNow := [0; 0]; sim_cLvlNow := [NaN; NaN]; sim_MPCnow := [NaN; NaN] |};
  run_sim := fun beta corr f sol T s => {|
    sim_t_cycle := sim_t_cycle s;
    sim_mLvlNow := [2; 4];
    sim_pLvlNow := [1; 2];
    sim_aLvlNow := [1; 3];
    sim_cLvlNow := [Fin 1; Fin 1];
    sim_MPCnow := [Fin (1 - beta); Fin (1 - beta)] |}
|}.

(** ** The Gini coefficient as the specification words it *)

(** One minus twice the mean of the Lorenz shares at the 201 interior
    percentile points, the two boundary points left out. *)
Definition Gini_spec (aLvl_all : list Q) : npfloat :=
  fsub (Fin 1) (fmul (Fin 2) (np_fmean (getLorenzShares aLvl_all wealth_percentile))).

(** The first of the interior percentile points, 0.001. *)
Definition first_percentile : Q := hd 0 wealth_percentile.

(** The two rows of the Lorenz array. *)
Definition percentile_row : list npfloat :=
  [Fin 0] ++ map Fin wealth_percentile ++ [Fin 1].

Definition share_row (aLvl_all : list Q) : list npfloat :=
  [Fin 0] ++ getLorenzShares aLvl_all wealth_percentile ++ [Fin 1].

(** Equality of doubles as a test. *)
Definition feqb (x y : npfloat) : bool :=
  match x, y with
  | Fin a, Fin b => Qeq_bool a b
  | PInf, PInf => true
  | NInf, NInf => true
  | NaN, NaN => true
  | _, _ => false
  end.

(** The notebook's own call, and the assets the small engine simulates
    for it: seven types of two agents. *)
Definition notebook_run (E : Engine) : result Aggregates :=
  runRoszypalSchlaffmanExperiment E (97 # 100) (9831 # 10000) (9867 # 10000)
    (67 # 10000).

Definition toy_aLvl_all : list Q := concat (repeat [1; 3] 7).

(** The interior percentile points, one by one. *)
Definition percentile_at (i : nat) : Q :=
  (1 # 1000) + inject_Z (Z.of_nat i) * (((999 # 1000) - (1 # 1000)) / inject_Z 200).

(** The calls one consumer type receives in its pass of the loop. *)
Definition expected_calls (beta CorrAct CorrPcvd : Q) : list Event :=
  [EvConstruct beta CorrAct; EvSetPrstIncCorr CorrPcvd; EvUpdatepLvlNextFunc;
   EvSolve; EvSetPrstIncCorr CorrAct; EvUpdatepLvlNextFunc; EvSetT_sim 100;
   EvInitializeSim; EvSimulate].

(** What the end-to-end scenario takes from the engine: every simulated
    cross section has positive total assets and positive total permanent
    income. *)
Definition positive_cross_section (E : Engine) : Prop :=
  forall beta corr f sol T st,
    0 < Qsum (sim_aLvlNow (run_sim E beta corr f sol T st)) /\
    0 < Qsum (sim_pLvlNow (run_sim E beta corr f sol T st)).

(** Three arrays read side by side. *)
Fixpoint map3 {A B C D : Type} (g : A -> B -> C -> D)
  (xs : list A) (ys : list B) (zs : list C) : list D :=
  match xs, ys, zs with
  | x :: xs', y :: ys', z :: zs' => g x y z :: map3 g xs' ys' zs'
  | _, _, _ => []
  end.

(** The array of controls once the periods below [k] are processed:
    agent by agent, the value picked from the period's consumption
    function for an agent at a period below [k], nan for the others. *)
Definition controls_after (self : AgentType) (k : nat) (pick : CFunc -> Q -> Q -> Q)
  : list npfloat :=
  map3 (fun t m p =>
          if (t <? k)%nat then
            match nth_error (solution self) t with
            | Some sol => Fin (pick (cFunc sol) m p)
            | None => NaN
            end
          else NaN)
       (t_cycle self) (mLvlNow self) (pLvlNow self).

(** A consumer type in the middle of a cycle of two periods, with one
    agent at a period outside the cycle. *)
Definition toy_agent : AgentType := {|
  DiscFac := 96 # 100; PrstIncCorr := 98 # 100;
  AgentCount := 3; T_cycle := 2; T_sim := 100;
  pLvlNextFunc := fun p => (98 # 100) * p;
  solution :=
    [{| cFunc := {| call := fun m p => (1 # 10) * m + p;
                    derivativeX := fun m p => 1 # 10 |} |};
     {| cFunc := {| call := fun m p => (2 # 10) * m;
                    derivativeX := fun m p => 2 # 10 |} |}];
  t_cycle := [1%nat; 0%nat; 5%nat];
  mLvlNow := [10; 20; 30];
  pLvlNow := [1; 2; 3];
  aLvlNow := [0; 0; 0];
  cLvlNow := [];
  MPCnow := [];
  history := []
|}.

(** One agent of the flat arrays: the four values it contributes. *)
Record AgentRow : Type := {
  row_cLvl : npfloat;
  row_aLvl : Q;
  row_MPC : npfloat;
  row_pLvl : Q
}.

(** The aggregation of a population given agent by agent; reordering the
    population reorders the four flat arrays together. *)
Definition aggregate_rows (pop : list AgentRow) : result Aggregates :=
  aggregate (map row_aLvl pop) (map row_MPC pop) (map row_pLvl pop).

(** No two elements with the same key. *)
Fixpoint distinct_keys {A : Type} (key : A -> Q) (l : list A) : Prop :=
  match l with
  | [] => True
  | x :: t => Forall (fun y => ~ key x == key y) t /\ distinct_keys key t
  end.

(** Five agents of equal permanent income, and the same five with the
    first two exchanged. *)
Definition tied_pop : list AgentRow :=
  [{| row_cLvl := Fin 1; row_aLvl := 1; row_MPC := Fin (1 # 10); row_pLvl := 1 |};
   {| row_cLvl := Fin 1; row_aLvl := 2; row_MPC := Fin (2 # 10); row_pLvl := 1 |};
   {| row_cLvl := Fin 1; row_aLvl := 3; row_MPC := Fin (3 # 10); row_pLvl := 1 |};
   {| row_cLvl := Fin 1; row_aLvl := 4; row_MPC := Fin (4 # 10); row_pLvl := 1 |};
   {| row_cLvl := Fin 1; row_aLvl := 5; row_MPC := Fin (5 # 10); row_pLvl := 1 |}].

Definition tied_pop_swapped : list AgentRow :=
  [{| row_cLvl := Fin 1; row_aLvl := 2; row_MPC := Fin (2 # 10); row_pLvl := 1 |};
   {| row_cLvl := Fin 1; row_aLvl := 1; row_MPC := Fin (1 # 10); row_pLvl := 1 |};
   {| row_cLvl := Fin 1; row_aLvl := 3; row_MPC := Fin (3 # 10); row_pLvl := 1 |};
   {| row_cLvl := Fin 1; row_aLvl := 4; row_MPC := Fin (4 # 10); row_pLvl := 1 |};
   {| row_cLvl := Fin 1; row_aLvl := 5; row_MPC := Fin (5 # 10); row_pLvl := 1 |}].

(** Three agents of distinct permanent incomes, in two orders. *)
Definition small_pop : list AgentRow :=
  [{| row_cLvl := Fin 1; row_aLvl := 3; row_MPC := Fin (1 # 10); row_pLvl := 2 |};
   {| row_cLvl := Fin 2; row_aLvl := 1; row_MPC := Fin (3 # 10); row_pLvl := 1 |};
   {| row_cLvl := Fin 3; row_aLvl := 2; row_MPC := Fin (2 # 10); row_pLvl := 3 |}].

Definition small_pop_reordered : list AgentRow :=
  [{| row_cLvl := Fin 2; row_aLvl := 1; row_MPC := Fin (3 # 10); row_pLvl := 1 |};
   {| row_cLvl := Fin 1; row_aLvl := 3; row_MPC := Fin (1 # 10); row_pLvl := 2 |};
   {| row_cLvl := Fin 3; row_aLvl := 2; row_MPC := Fin (2 # 10); row_pLvl := 3 |}].

(** The order a sort by [key] establishes. *)
Definition key_le {A : Type} (key : A -> Q) (a b : A) : Prop := key a <= key b.

(** Case analysis on every comparison [Qle_bool a b] of the goal, each
    turned into the inequality it decides. *)
Ltac Qle_bool_cases :=
  repeat match goal with
  | |- context [Qle_bool ?a ?b] =>
      let E := fresh "E" in
      destruct (Qle_bool a b) eqn:E;
      [apply Qle_bool_iff in E
      |assert (b < a) by
         (destruct (Qlt_le_dec b a) as [?|Hle]; [assumption|];
          apply Qle_bool_iff in Hle; congruence);
       clear E]
  end.

(** The small type with every agent inside the cycle. *)
Definition toy_agent_in_cycle : AgentType := {|
  DiscFac := DiscFac toy_agent; PrstIncCorr := PrstIncCorr toy_agent;
  AgentCount := 3; T_cycle := 2; T_sim := 100;
  pLvlNextFunc := pLvlNextFunc toy_agent;
  solution := solution toy_agent;
  t_cycle := [1%nat; 0%nat; 1%nat];
  mLvlNow := [10; 20; 30];
  pLvlNow := [1; 2; 3];
  aLvlNow := [0; 0; 0];
  cLvlNow := [];
  MPCnow := [];
  history := []
|}.

(** An engine that differs from [E] in the consumption array its
    simulation leaves, and in nothing else. *)
Definition with_cLvlNow (E : Engine) (g : list npfloat -> list npfloat) : Engine := {|
  make_pLvlNextFunc := make_pLvlNextFunc E;
  solve_model := solve_model E;
  init_sim := init_sim E;
  run_sim := fun beta corr f sol T st =>
    let s := run_sim E beta corr f sol T st in
    {| sim_t_cycle := sim_t_cycle s; sim_mLvlNow := sim_mLvlNow s;
       sim_pLvlNow := sim_pLvlNow s; sim_aLvlNow := sim_aLvlNow s;
       sim_cLvlNow := g (sim_cLvlNow s); sim_MPCnow := sim_MPCnow s |}
|}.

(** An engine whose simulation keeps one entry per agent: the state set
    up for [n] agents has [n] entries in each array and simulating does
    not change the arrays. *)
Definition sized_engine : Engine := {|
  make_pLvlNextFunc := fun corr p => corr * p;
  solve_model := fun beta corr f => [];
  init_sim := fun n => {|
    sim_t_cycle := repeat 0%nat n; sim_mLvlNow := repeat 1 n;
    sim_pLvlNow := repeat 1 n; sim_aLvlNow := repeat 1 n;
    sim_cLvlNow := repeat NaN n; sim_MPCnow := repeat NaN n |};
  run_sim := fun beta corr f sol T s => s
|}.

(** What [sized_engine] has and the population count needs: the arrays
    of assets, MPC and permanent income of a simulated type are as long
    as those of the state the simulation started from, and that state
    has one entry per agent. *)
Definition keeps_agent_count (E : Engine) : Prop :=
  (forall n, length (sim_aLvlNow (init_sim E n)) = n /\
             length (sim_MPCnow (init_sim E n)) = n /\
             length (sim_pLvlNow (init_sim E n)) = n) /\
  (forall beta corr f sol T st,
      length (sim_aLvlNow (run_sim E beta corr f sol T st)) = length (sim_aLvlNow st) /\
      length (sim_MPCnow (run_sim E beta corr f sol T st)) = length (sim_MPCnow st) /\
      length (sim_pLvlNow (run_sim E beta corr f sol T st)) = length (sim_pLvlNow st)).

(** ** Formatting a number *)

Section Formatting.

Import String Ascii.
Local Open Scope string_scope.

(** The nearest integer, a tie going to the even one. *)
Definition round_half_even (x : Q) : Z :=
  let f := Qfloor x in
  match ((x - inject_Z f) ?= (1 # 2))%Q with
  | Lt => f
  | Gt => (f + 1)%Z
  | Eq => if Z.even f then f else (f + 1)%Z
  end.

Definition digit (d : Z) : ascii := ascii_of_N (48 + Z.to_N d)%N.

(** The four decimal digits of [v], for [0 <= v < 10000]. *)
Definition four_digits (v : Z) : string :=
  String (digit ((v / 1000) mod 10)%Z)
    (String (digit ((v / 100) mod 10)%Z)
       (String (digit ((v / 10) mod 10)%Z)
          (String (digit (v mod 10)%Z) EmptyString))).

(** The decimal digits of [v >= 0], without leading zeros, "0" for zero. *)
Definition integer_digits (v : Z) : string :=
  DecimalString.NilZero.string_of_uint (N.to_uint (Z.to_N v)).

Definition sign_of (q : Q) : string := if Qle_bool 0 q then "" else "-".

(** ["{:.4f}".format(q)] for a finite [q]: the sign of [q], then [|q|]
    rounded to four decimals, ties to even. *)
Definition format_4f (q : Q) : string :=
  let n := round_half_even (Qabs q * 10000) in
  sign_of q ++ integer_digits (n / 10000)%Z ++ "." ++ four_digits (n mod 10000)%Z.

(** [mystr = lambda number : "{:.4f}".format(number)] *)
Definition mystr (number : npfloat) : string :=
  match number with
  | Fin q => format_4f q
  | PInf => "inf"
  | NInf => "-inf"
  | NaN => "nan"
  end.

Definition is_digit (c : ascii) : Prop := (48 <= N_of_ascii c <= 57)%N.

End Formatting.

(** * Properties *)

(** ** The definitions on concrete inputs *)

Example linspace_5 : np_linspace 0 1 5 = [0 + 0 * ((1 - 0) / 4);
  0 + 1 * ((1 - 0) / 4); 0 + 2 * ((1 - 0) / 4); 0 + 3 * ((1 - 0) / 4);
  0 + 4 * ((1 - 0) / 4)].
Proof. reflexivity. Qed.

Example wealth_percentile_ends :
  hd 0 wealth_percentile == 1 # 1000 /\ last wealth_percentile 0 == 999 # 1000.
Proof. split; reflexivity. Qed.

Example ensemble_half :
  Forall2 Qeq (DiscFac_ensemble (1 # 2) (7 # 100))
    [44 # 100; 46 # 100; 48 # 100; 50 # 100; 52 # 100; 54 # 100; 56 # 100].
Proof. repeat constructor. Qed.

Example sort_keeps_ties_in_order :
  sort_by snd [(1, 2); (2, 1); (3, 2); (4, 1)] = [(2, 1); (4, 1); (1, 2); (3, 2)].
Proof. reflexivity. Qed.

Example lorenz_shares_four_agents :
  getLorenzShares [4; 1; 3; 2] [1 # 4; 1 # 2; 3 # 4]
  = [Fin ((1 + 0) / (4 + (1 + (3 + (2 + 0)))));
     Fin ((1 + (2 + 0)) / (4 + (1 + (3 + (2 + 0)))));
     Fin ((1 + (2 + (3 + 0))) / (4 + (1 + (3 + (2 + 0)))))].
Proof. reflexivity. Qed.

Example division_by_zero :
  fdiv (Fin 1) (Fin 0) = PInf /\ fdiv (Fin (- (1))) (Fin 0) = NInf /\
  fdiv (Fin 0) (Fin 0) = NaN /\ np_mean [] = NaN.
Proof. repeat split; reflexivity. Qed.

Example masked_assignment :
  np_setmask [NaN; NaN; NaN] [true; false; true] [Fin 1; Fin 2]
  = Ok [Fin 1; NaN; Fin 2] /\
  np_setmask [NaN; NaN; NaN] [true; false] [Fin 1] = Raise IndexError /\
  np_getmask [1; 2; 3] [false; true; true] = Ok [2; 3].
Proof. repeat split; reflexivity. Qed.

(** ** Rationals, sums and lengths *)

Lemma Qlen_nil {A : Type} : Qlen (@nil A) = 0.
Proof. reflexivity. Qed.

Lemma Qlen_cons {A : Type} (x : A) (l : list A) : Qlen (x :: l) == Qlen l + 1.
Proof.
  unfold Qlen. cbn [length]. rewrite Nat2Z.inj_succ, <- Z.add_1_r, inject_Z_plus.
  reflexivity.
Qed.

Lemma Qlen_nonneg {A : Type} (l : list A) : 0 <= Qlen l.
Proof.
  unfold Qlen. change 0 with (inject_Z 0). rewrite <- Zle_Qle. lia.
Qed.

Lemma Qlen_pos {A : Type} (l : list A) : l <> [] -> 0 < Qlen l.
Proof.
  destruct l as [|x l]; [congruence|]. intros _.
  rewrite Qlen_cons. pose proof (Qlen_nonneg l). lra.
Qed.

Lemma Qlen_nil_iff {A : Type} (l : list A) : Qlen l == 0 <-> l = [].
Proof.
  split.
  - destruct l as [|x l]; [reflexivity|]. intros H.
    pose proof (Qlen_pos (x :: l) ltac:(discriminate)). lra.
  - intros ->. reflexivity.
Qed.

Lemma Qsum_nil : Qsum [] = 0.
Proof. reflexivity. Qed.

Lemma Qsum_cons (a : Q) (l : list Q) : Qsum (a :: l) = a + Qsum l.
Proof. reflexivity. Qed.

Lemma Qsum_app (l1 l2 : list Q) : Qsum (l1 ++ l2) == Qsum l1 + Qsum l2.
Proof.
  induction l1 as [|a l1 IH]; cbn [app].
  - rewrite Qsum_nil. lra.
  - rewrite !Qsum_cons, IH. lra.
Qed.

Lemma Qsum_perm (l l' : list Q) : Permutation l l' -> Qsum l == Qsum l'.
Proof.
  induction 1; rewrite ?Qsum_cons in *; lra.
Qed.

Lemma Qsum_nonneg (l : list Q) : Forall (Qle 0) l -> 0 <= Qsum l.
Proof.
  induction 1; rewrite ?Qsum_cons; [apply Qle_refl | lra].
Qed.

Lemma Qsum_firstn_skipn (k : nat) (l : list Q) :
  Qsum l == Qsum (firstn k l) + Qsum (skipn k l).
Proof. rewrite <- Qsum_app, firstn_skipn. reflexivity. Qed.

Lemma Qsum_lower (a : Q) (l : list Q) :
  Forall (Qle a) l -> Qlen l * a <= Qsum l.
Proof.
  induction 1 as [|x l Hx Hl IH].
  - rewrite Qlen_nil, Qsum_nil. lra.
  - rewrite Qlen_cons, Qsum_cons. lra.
Qed.

Lemma Forall_prefix {A : Type} (P : A -> Prop) (k : nat) (l : list A) :
  Forall P l -> Forall P (firstn k l).
Proof.
  intros H. rewrite <- (firstn_skipn k l) in H. apply Forall_app in H. tauto.
Qed.

Lemma Qsum_firstn_le (k : nat) (l : list Q) :
  Forall (Qle 0) l -> Qsum (firstn k l) <= Qsum l.
Proof.
  intros H. pose proof (Qsum_firstn_skipn k l) as Hsplit.
  assert (0 <= Qsum (skipn k l)).
  { apply Qsum_nonneg. rewrite <- (firstn_skipn k l) in H.
    apply Forall_app in H. tauto. }
  lra.
Qed.

Lemma Qsum_firstn_mono (j k : nat) (l : list Q) :
  Forall (Qle 0) l -> (j <= k)%nat -> Qsum (firstn j l) <= Qsum (firstn k l).
Proof.
  intros H Hjk. replace j with (Nat.min j k) by lia.
  rewrite <- firstn_firstn. apply Qsum_firstn_le.
  rewrite <- (firstn_skipn k l) in H. apply Forall_app in H. tauto.
Qed.

(** ** Sorting *)

Section Sorting.

Context {A : Type} (key : A -> Q).

Lemma insert_by_perm (x : A) (l : list A) : Permutation (insert_by key x l) (x :: l).
Proof.
  induction l as [|h t IH]; cbn; [reflexivity|].
  destruct (Qle_bool (key x) (key h)); [reflexivity|].
  rewrite IH. apply perm_swap.
Qed.

Lemma sort_by_perm (l : list A) : Permutation (sort_by key l) l.
Proof.
  induction l as [|x t IH]; cbn; [reflexivity|].
  rewrite insert_by_perm. now apply perm_skip.
Qed.

Lemma sort_by_length (l : list A) : length (sort_by key l) = length l.
Proof. apply Permutation_length, sort_by_perm. Qed.

Lemma insert_by_sorted (x : A) (l : list A) :
  StronglySorted (key_le key) l -> StronglySorted (key_le key) (insert_by key x l).
Proof.
  induction 1 as [|h t Ht IH Hh]; cbn.
  - repeat constructor.
  - destruct (Qle_bool (key x) (key h)) eqn:Hc.
    + apply Qle_bool_iff in Hc. constructor; [now constructor|].
      constructor; [exact Hc|].
      eapply Forall_impl; [|exact Hh]. unfold key_le. intros b Hb. lra.
    + constructor; [exact IH|].
      assert (Hlt : key h <= key x).
      { destruct (Qlt_le_dec (key h) (key x)) as [Hl|Hl]; [lra|].
        apply Qle_bool_iff in Hl. congruence. }
      eapply Permutation_Forall; [symmetry; apply insert_by_perm|].
      constructor; assumption.
Qed.

Lemma sort_by_sorted (l : list A) : StronglySorted (key_le key) (sort_by key l).
Proof.
  induction l as [|x t IH]; cbn; [constructor|]. now apply insert_by_sorted.
Qed.

End Sorting.

Lemma np_sort_sorted (l : list Q) : StronglySorted Qle (np_sort l).
Proof. exact (sort_by_sorted (fun x => x) l). Qed.

Lemma np_sort_perm (l : list Q) : Permutation (np_sort l) l.
Proof. exact (sort_by_perm (fun x => x) l). Qed.

(** The bottom [k] of an ascending array hold at most the fraction [k/N]
    of the total. *)
Lemma bottom_share_bound (l : list Q) (k : nat) :
  StronglySorted Qle l -> (k <= length l)%nat ->
  Qlen l * Qsum (firstn k l) <= inject_Z (Z.of_nat k) * Qsum l.
Proof.
  intros Hs. revert k. induction Hs as [|a t Ht IH Ha]; intros k Hk.
  - cbn in Hk. replace k with 0%nat by lia.
    cbn [firstn]. rewrite Qsum_nil. lra.
  - destruct k as [|k'].
    + cbn [firstn]. rewrite Qsum_nil. change (inject_Z (Z.of_nat 0)) with 0. lra.
    + cbn [length] in Hk. assert (Hk' : (k' <= length t)%nat) by lia.
      specialize (IH k' Hk').
      cbn [firstn]. rewrite Qlen_cons, !Qsum_cons.
      rewrite Nat2Z.inj_succ, <- Z.add_1_r, inject_Z_plus.
      change (inject_Z 1) with 1.
      pose proof (Qsum_firstn_skipn k' t) as Hsplit.
      assert (Hskip : Qlen (skipn k' t) * a <= Qsum (skipn k' t)).
      { apply Qsum_lower. rewrite <- (firstn_skipn k' t) in Ha.
        apply Forall_app in Ha. tauto. }
      assert (Hlen : Qlen (skipn k' t) == Qlen t - inject_Z (Z.of_nat k')).
      { unfold Qlen. rewrite length_skipn, Nat2Z.inj_sub by lia.
        unfold Zminus. rewrite inject_Z_plus, inject_Z_opp. lra. }
      rewrite Hlen in Hskip.
      set (n := Qlen t) in *. set (kq := inject_Z (Z.of_nat k')) in *.
      set (F := Qsum (firstn k' t)) in *. set (T := Qsum t) in *.
      set (S' := Qsum (skipn k' t)) in *.
      nra.
Qed.

(** ** The aggregation step, unfolded *)

Lemma wealth_percentile_length : length wealth_percentile = 201%nat.
Proof. unfold wealth_percentile, np_linspace. now rewrite length_map, length_seq. Qed.

Lemma wealth_percentile_cons :
  wealth_percentile = first_percentile :: tl wealth_percentile.
Proof. reflexivity. Qed.

Lemma first_percentile_value : first_percentile == 1 # 1000.
Proof. reflexivity. Qed.

Lemma getLorenzShares_length (data ps : list Q) :
  length (getLorenzShares data ps) = length ps.
Proof. unfold getLorenzShares. apply length_map. Qed.

Lemma percentile_row_length : length percentile_row = 203%nat.
Proof.
  unfold percentile_row. rewrite !length_app, length_map, wealth_percentile_length.
  reflexivity.
Qed.

Lemma share_row_length (aLvl_all : list Q) : length (share_row aLvl_all) = 203%nat.
Proof.
  unfold share_row.
  rewrite !length_app, getLorenzShares_length, wealth_percentile_length.
  reflexivity.
Qed.

(** The aggregation never raises, and its four results are these. *)
Lemma aggregate_eq (aLvl_all : list Q) (MPC_all : list npfloat) (pLvl_all : list Q) :
  aggregate aLvl_all MPC_all pLvl_all =
  Ok (fdiv (np_mean aLvl_all) (np_mean pLvl_all),
      [percentile_row; share_row aLvl_all],
      fsub (Fin 1) (fmul (Fin 2) (lorenz_share aLvl_all first_percentile)),
      calcSubpopAvg MPC_all pLvl_all quintiles).
Proof.
  unfold aggregate. fold percentile_row. fold (share_row aLvl_all).
  unfold np_stack2. rewrite percentile_row_length, share_row_length.
  cbn [Nat.eqb bind].
  unfold share_row at 1. rewrite wealth_percentile_cons at 1.
  reflexivity.
Qed.

Lemma feqb_iff (x y : npfloat) : feqb x y = true <-> feq x y.
Proof.
  destruct x, y; cbn; try (split; (discriminate || tauto)).
  apply Qeq_bool_iff.
Qed.

Lemma np_mean_nil : np_mean [] = NaN.
Proof. reflexivity. Qed.

Lemma np_mean_fin (l : list Q) : l <> [] -> np_mean l = Fin (Qsum l / Qlen l).
Proof.
  intros Hl. unfold np_mean, fdiv.
  destruct (Qeq_bool (Qlen l) 0) eqn:Hz; [|reflexivity].
  apply Qeq_bool_iff, Qlen_nil_iff in Hz. contradiction.
Qed.

Lemma inf_of_sign_not_finite (q : Q) : is_finite (inf_of_sign q) = false.
Proof. unfold inf_of_sign. now destruct (q ?= 0). Qed.

(** ** Lorenz shares of a non-negative distribution *)

Lemma lorenz_share_fin (data : list Q) (p : Q) :
  0 < Qsum data ->
  lorenz_share data p =
  Fin (Qsum (firstn (rank_of p (length data)) (np_sort data)) / Qsum data).
Proof.
  intros Hpos. unfold lorenz_share, fdiv.
  destruct (Qeq_bool (Qsum data) 0) eqn:Hz; [|reflexivity].
  apply Qeq_bool_iff in Hz. lra.
Qed.

Lemma np_sort_nonneg (data : list Q) :
  Forall (Qle 0) data -> Forall (Qle 0) (np_sort data).
Proof.
  intros H. eapply Permutation_Forall; [symmetry; apply np_sort_perm|exact H].
Qed.

Lemma rank_of_mono (p q : Q) (N : nat) :
  p <= q -> (rank_of p N <= rank_of q N)%nat.
Proof.
  intros Hpq. unfold rank_of.
  assert (H : (Qceiling (p * inject_Z (Z.of_nat N))
               <= Qceiling (q * inject_Z (Z.of_nat N)))%Z).
  { apply Qceiling_resp_le.
    assert (HN : 0 <= inject_Z (Z.of_nat N)).
    { change 0 with (inject_Z 0). rewrite <- Zle_Qle. lia. }
    nra. }
  lia.
Qed.

Lemma rank_of_Qeq (p q : Q) (N : nat) : p == q -> rank_of p N = rank_of q N.
Proof.
  intros Hpq. apply Nat.le_antisymm; apply rank_of_mono; lra.
Qed.

(** At the first percentile, 0.001, the rank is at most half the
    population as soon as there are two agents. *)
Lemma rank_first_percentile (N : nat) :
  (2 <= N)%nat -> (2 * rank_of first_percentile N <= N)%nat.
Proof.
  intros HN. rewrite (rank_of_Qeq _ _ N first_percentile_value). unfold rank_of.
  set (x := (1 # 1000) * inject_Z (Z.of_nat N)).
  pose proof (Qceiling_lt x) as Hc. set (c := Qceiling x) in *.
  assert (Hz : (1000 * (c - 1) < Z.of_nat N)%Z).
  { rewrite Zlt_Qlt, inject_Z_mult. change (inject_Z 1000) with 1000.
    unfold x in Hc. lra. }
  lia.
Qed.

Lemma lorenz_share_bounds (data : list Q) (p : Q) :
  Forall (Qle 0) data -> 0 < Qsum data ->
  exists v, lorenz_share data p = Fin v /\ 0 <= v <= 1.
Proof.
  intros Hnn Hpos. rewrite lorenz_share_fin by assumption.
  eexists; split; [reflexivity|].
  pose proof (np_sort_nonneg data Hnn) as Hs.
  pose proof (Qsum_perm _ _ (np_sort_perm data)) as Hperm.
  split.
  - apply Qle_shift_div_l; [assumption|].
    pose proof (Qsum_nonneg _ (Forall_prefix _
      (rank_of p (length data)) _ Hs)). lra.
  - apply Qle_shift_div_r; [assumption|].
    pose proof (Qsum_firstn_le (rank_of p (length data)) _ Hs). lra.
Qed.

Lemma lorenz_share_mono (data : list Q) (p q : Q) :
  Forall (Qle 0) data -> 0 < Qsum data -> p <= q ->
  fle (lorenz_share data p) (lorenz_share data q).
Proof.
  intros Hnn Hpos Hpq. rewrite !lorenz_share_fin by assumption. cbn [fle].
  pose proof (np_sort_nonneg data Hnn) as Hs.
  pose proof (Qsum_firstn_mono _ _ _ Hs (rank_of_mono p q (length data) Hpq)) as Hm.
  apply Qle_shift_div_l; [assumption|].
  unfold Qdiv. rewrite <- Qmult_assoc, (Qmult_comm (/ Qsum data)), Qmult_inv_r; lra.
Qed.

(** With at least two agents the share at the first percentile is at
    most one half. *)
Lemma first_share_half (data : list Q) :
  (2 <= length data)%nat -> Forall (Qle 0) data -> 0 < Qsum data ->
  exists v, lorenz_share data first_percentile = Fin v /\ 0 <= v /\ 2 * v <= 1.
Proof.
  intros HN Hnn Hpos. rewrite lorenz_share_fin by assumption.
  eexists; split; [reflexivity|].
  pose proof (np_sort_nonneg data Hnn) as Hs.
  pose proof (Qsum_perm _ _ (np_sort_perm data)) as Hperm.
  set (k := rank_of first_percentile (length data)).
  pose proof (rank_first_percentile (length data) HN) as Hk. fold k in Hk.
  pose proof (Qsum_nonneg _ (Forall_prefix _ k _ Hs)) as HF.
  assert (Hb : Qlen (np_sort data) * Qsum (firstn k (np_sort data))
               <= inject_Z (Z.of_nat k) * Qsum (np_sort data)).
  { apply bottom_share_bound; [apply np_sort_sorted|].
    unfold np_sort. rewrite sort_by_length. lia. }
  assert (Hlen : Qlen (np_sort data) = Qlen data).
  { unfold Qlen, np_sort. now rewrite sort_by_length. }
  rewrite Hlen in Hb.
  assert (H2k : 2 * inject_Z (Z.of_nat k) <= Qlen data).
  { unfold Qlen. change 2 with (inject_Z 2).
    rewrite <- inject_Z_mult, <- Zle_Qle. lia. }
  assert (Hk0 : 0 <= inject_Z (Z.of_nat k)).
  { change 0 with (inject_Z 0). rewrite <- Zle_Qle. lia. }
  set (S' := Qsum (firstn k (np_sort data))) in *.
  set (T := Qsum data) in *. set (kq := inject_Z (Z.of_nat k)) in *.
  assert (H2 : 2 * S' <= T).
  { destruct (Qlt_le_dec 0 kq) as [Hkpos|Hk0'].
    - apply (Qmult_le_l _ _ kq Hkpos). nra.
    - assert (Hkz : k = 0%nat).
      { assert (kq == 0) by lra. unfold kq in H. change 0 with (inject_Z 0) in H.
        apply (proj1 (inject_Z_injective _ _)) in H. lia. }
      unfold S'. rewrite Hkz. cbn [firstn]. rewrite Qsum_nil. lra. }
  split.
  - apply Qle_shift_div_l; lra.
  - assert (Hd : S' / T <= 1 # 2).
    { apply Qle_shift_div_r; [assumption|]. lra. }
    lra.
Qed.

(** ** The Gini coefficient *)

(** What the code computes: [Lorenz_init[1]] is one number, the share at
    the first interior percentile, and the mean of one number is that
    number. *)
Lemma Gini_is_first_share (aLvl_all : list Q) (MPC_all : list npfloat)
  (pLvl_all : list Q) :
  exists r, aggregate aLvl_all MPC_all pLvl_all = Ok r /\
    Gini_of r = fsub (Fin 1) (fmul (Fin 2) (lorenz_share aLvl_all first_percentile)).
Proof. rewrite aggregate_eq. eexists; split; reflexivity. Qed.




(** ** The wealth ratio and the missing guards *)



(** ** The Lorenz curve *)

Lemma StronglySorted_map_seq {B : Type} (R : B -> B -> Prop) (f : nat -> B)
  (a n : nat) :
  (forall i j, (i <= j)%nat -> R (f i) (f j)) ->
  StronglySorted R (map f (seq a n)).
Proof.
  intros Hmono. revert a. induction n as [|n IH]; intros a; cbn; constructor.
  - apply IH.
  - apply Forall_map, Forall_forall. intros j Hj. apply in_seq in Hj.
    apply Hmono. lia.
Qed.

Lemma StronglySorted_snoc {B : Type} (R : B -> B -> Prop) (l : list B) (x : B) :
  StronglySorted R l -> Forall (fun y => R y x) l -> StronglySorted R (l ++ [x]).
Proof.
  induction 1 as [|h t Ht IH Hh]; intros Hx; cbn.
  - repeat constructor.
  - inversion Hx as [|? ? Hhx Htx]; subst. constructor; [now apply IH|].
    apply Forall_app. split; [exact Hh|]. now repeat constructor.
Qed.

Lemma wealth_percentile_seq : wealth_percentile = map percentile_at (seq 0 201).
Proof. reflexivity. Qed.

Lemma percentile_at_mono (i j : nat) :
  (i <= j)%nat -> percentile_at i <= percentile_at j.
Proof.
  intros Hij. unfold percentile_at.
  assert (Hs : ((999 # 1000) - (1 # 1000)) / inject_Z 200 == 499 # 100000)
    by reflexivity.
  rewrite Hs.
  assert (Hq : inject_Z (Z.of_nat i) <= inject_Z (Z.of_nat j)).
  { rewrite <- Zle_Qle. lia. }
  lra.
Qed.

(** Whatever the arrays, the two rows of the Lorenz array start at 0 and
    end at 1. *)
Lemma Lorenz_endpoints (aLvl_all : list Q) (MPC_all : list npfloat)
  (pLvl_all : list Q) :
  exists r, aggregate aLvl_all MPC_all pLvl_all = Ok r /\
    Lorenz_of r = [percentile_row; share_row aLvl_all] /\
    hd_error percentile_row = Some (Fin 0) /\
    hd_error (share_row aLvl_all) = Some (Fin 0) /\
    last percentile_row NaN = Fin 1 /\
    last (share_row aLvl_all) NaN = Fin 1.
Proof.
  rewrite aggregate_eq. eexists. split; [reflexivity|].
  split; [reflexivity|]. split; [reflexivity|]. split; [reflexivity|].
  unfold percentile_row, share_row. rewrite !app_assoc, !last_last. now split.
Qed.

Lemma share_row_sorted (aLvl_all : list Q) :
  Forall (Qle 0) aLvl_all -> 0 < Qsum aLvl_all ->
  StronglySorted fle (share_row aLvl_all).
Proof.
  intros Hnn Hpos. unfold share_row, getLorenzShares.
  cbn [app]. constructor.
  - apply StronglySorted_snoc.
    + rewrite wealth_percentile_seq, map_map.
      apply StronglySorted_map_seq. intros i j Hij.
      apply lorenz_share_mono; auto using percentile_at_mono.
    + apply Forall_map, Forall_forall. intros p _.
      destruct (lorenz_share_bounds aLvl_all p Hnn Hpos) as [v [-> [_ Hv]]].
      exact Hv.
  - apply Forall_app. split; [|repeat constructor; cbn; lra].
    apply Forall_map, Forall_forall. intros p _.
    destruct (lorenz_share_bounds aLvl_all p Hnn Hpos) as [v [-> [Hv _]]].
    exact Hv.
Qed.



(** ** The ensemble of discount factors *)

Lemma ensemble_closed_form (c s : Q) :
  exists x0 x1 x2 x3 x4 x5 x6,
    DiscFac_ensemble c s = [x0; x1; x2; x3; x4; x5; x6] /\
    x0 == c - s * (6 # 7) /\ x1 == c - s * (4 # 7) /\ x2 == c - s * (2 # 7) /\
    x3 == c /\
    x4 == c + s * (2 # 7) /\ x5 == c + s * (4 # 7) /\ x6 == c + s * (6 # 7).
Proof.
  do 7 eexists. split; [reflexivity|].
  repeat split; cbn; field.
Qed.

Lemma ensemble_length (c s : Q) : length (DiscFac_ensemble c s) = 7%nat.
Proof. reflexivity. Qed.



(** ** The loop over the ensemble *)

Section ExperimentFacts.

Context (E : Engine).

Lemma types_loop_snd (CorrAct CorrPcvd : Q) (l : list Q) (d : Dict)
  (acc : list AgentType) :
  snd (fold_left
         (fun (st : Dict * list AgentType) (beta : Q) =>
            let ThisDict := setitem_DiscFac (fst st) beta in
            (ThisDict, snd st ++ [make_type E ThisDict CorrAct CorrPcvd]))
         l (d, acc))
  = acc ++ map (fun beta => make_type E (setitem_DiscFac d beta) CorrAct CorrPcvd) l.
Proof.
  revert d acc. induction l as [|b l IH]; intros d acc; cbn [fold_left map].
  - now rewrite app_nil_r.
  - cbn [fst snd]. rewrite IH, <- app_assoc. reflexivity.
Qed.

(** One consumer type per ensemble value, in the order of the ensemble. *)
Lemma make_type_list_eq (CorrAct CorrPcvd c s : Q) :
  make_type_list E CorrAct CorrPcvd c s =
  map (fun beta =>
         make_type E (setitem_DiscFac (setitem_PrstIncCorr (copy BaselineDict) CorrAct)
                        beta) CorrAct CorrPcvd)
      (DiscFac_ensemble c s).
Proof.
  unfold make_type_list, types_loop. now rewrite types_loop_snd.
Qed.

Lemma make_type_list_length (CorrAct CorrPcvd c s : Q) :
  length (make_type_list E CorrAct CorrPcvd c s) = 7%nat.
Proof. now rewrite make_type_list_eq, length_map, ensemble_length. Qed.

(** What one pass of the loop leaves behind, for any dictionary whose
    persistence is the actual one. *)
Lemma make_type_facts (d : Dict) (CorrAct CorrPcvd : Q) :
  key_PrstIncCorr d = CorrAct ->
  (fun ag =>
    history ag = expected_calls (DiscFac ag) CorrAct CorrPcvd /\
    solution ag =
      solve_model E (DiscFac ag) CorrPcvd (make_pLvlNextFunc E CorrPcvd) /\
    PrstIncCorr ag = CorrAct /\
    pLvlNextFunc ag = make_pLvlNextFunc E CorrAct /\
    T_sim ag = 100%nat /\
    state_of ag =
      run_sim E (DiscFac ag) CorrAct (make_pLvlNextFunc E CorrAct)
        (solution ag) 100 (init_sim E (AgentCount ag)))
    (make_type E d CorrAct CorrPcvd).
Proof.
  intros <-. destruct d as [beta corr n tc ts]. cbn beta.
  repeat split; reflexivity.
Qed.

(** What every pass of the loop leaves behind, for each type of the
    list. *)
Lemma type_list_facts (CorrAct CorrPcvd c s : Q) :
  Forall (fun ag =>
    history ag = expected_calls (DiscFac ag) CorrAct CorrPcvd /\
    solution ag =
      solve_model E (DiscFac ag) CorrPcvd (make_pLvlNextFunc E CorrPcvd) /\
    PrstIncCorr ag = CorrAct /\
    pLvlNextFunc ag = make_pLvlNextFunc E CorrAct /\
    T_sim ag = 100%nat /\
    state_of ag =
      run_sim E (DiscFac ag) CorrAct (make_pLvlNextFunc E CorrAct)
        (solution ag) 100 (init_sim E (AgentCount ag)))
    (make_type_list E CorrAct CorrPcvd c s).
Proof.
  rewrite make_type_list_eq. apply Forall_map, Forall_forall. intros beta _.
  exact (make_type_facts
           (setitem_DiscFac (setitem_PrstIncCorr (copy BaselineDict) CorrAct) beta)
           CorrAct CorrPcvd eq_refl).
Qed.

(** C2: one consumer type per ensemble value, in ensemble order; each
    has received, in this order, the construction with that discount
    factor, the perceived persistence and a refresh of the cached
    function, the solve, the actual persistence and a second refresh,
    the horizon of 100 periods, the initialisation of the simulation and
    the simulation.  So its decision rule is the one solved for the
    perceived persistence and its simulated state is the one simulated,
    for 100 periods, with that rule under the actual persistence. *)
Theorem solved_perceived_simulated_actual (CorrAct CorrPcvd c s : Q) :
  let type_list := make_type_list E CorrAct CorrPcvd c s in
  map DiscFac type_list = DiscFac_ensemble c s /\
  Forall (fun ag =>
    history ag = expected_calls (DiscFac ag) CorrAct CorrPcvd /\
    solution ag =
      solve_model E (DiscFac ag) CorrPcvd (make_pLvlNextFunc E CorrPcvd) /\
    PrstIncCorr ag = CorrAct /\
    pLvlNextFunc ag = make_pLvlNextFunc E CorrAct /\
    T_sim ag = 100%nat /\
    state_of ag =
      run_sim E (DiscFac ag) CorrAct (make_pLvlNextFunc E CorrAct)
        (solution ag) 100 (init_sim E (AgentCount ag)))
    type_list.
Proof.
  cbv zeta. split; [|apply type_list_facts].
  rewrite make_type_list_eq, map_map. cbn [make_type]. apply map_id.
Qed.

(** The whole experiment in call order: the nine calls of each pass,
    pass after pass. *)
Lemma experiment_log_eq (CorrAct CorrPcvd c s : Q) :
  experiment_log (make_type_list E CorrAct CorrPcvd c s) =
  flat_map (fun beta => expected_calls beta CorrAct CorrPcvd) (DiscFac_ensemble c s).
Proof.
  unfold experiment_log. rewrite make_type_list_eq, map_map, flat_map_concat_map.
  reflexivity.
Qed.

Lemma np_concatenate_ok {A : Type} (arrays : list (list A)) :
  arrays <> [] -> np_concatenate arrays = Ok (concat arrays).
Proof. destruct arrays; [congruence|reflexivity]. Qed.

Lemma map_type_list_nonempty {B : Type} (f : AgentType -> B)
  (CorrAct CorrPcvd c s : Q) :
  map f (make_type_list E CorrAct CorrPcvd c s) <> [].
Proof.
  intros H. apply (f_equal (@length B)) in H.
  rewrite length_map, make_type_list_length in H. discriminate.
Qed.

(** The experiment is the aggregation of the concatenated arrays; the
    function itself never raises. *)
Lemma run_eq (CorrAct CorrPcvd c s : Q) :
  runRoszypalSchlaffmanExperiment E CorrAct CorrPcvd c s =
  let type_list := make_type_list E CorrAct CorrPcvd c s in
  aggregate (concat (map aLvlNow type_list)) (concat (map MPCnow type_list))
    (concat (map pLvlNow type_list)).
Proof.
  unfold runRoszypalSchlaffmanExperiment.
  rewrite !np_concatenate_ok by apply map_type_list_nonempty. reflexivity.
Qed.


End ExperimentFacts.

(** C1 (fails on the code).  On the notebook's call with the small
    engine the assets are seven times [1; 3]; the code returns the Gini
    coefficient 13/14 = 1 - 2 * (1/28), from the share at percentile
    0.001 alone, while one minus twice the mean of the 201 Lorenz shares
    is 167/938. *)
Theorem Gini_differs_from_mean_of_shares :
  exists r,
    notebook_run toy_engine = Ok r /\
    concat (map aLvlNow (make_type_list toy_engine (97 # 100) (9831 # 10000)
                           (9867 # 10000) (67 # 10000))) = toy_aLvl_all /\
    feq (Gini_of r) (Fin (13 # 14)) /\
    feq (Gini_spec toy_aLvl_all) (Fin (167 # 938)) /\
    ~ feq (Gini_of r) (Gini_spec toy_aLvl_all).
Proof.
  assert (Ha : concat (map aLvlNow (make_type_list toy_engine (97 # 100)
                (9831 # 10000) (9867 # 10000) (67 # 10000))) = toy_aLvl_all)
    by (vm_compute; reflexivity).
  unfold notebook_run. rewrite run_eq. cbv zeta. rewrite Ha, aggregate_eq.
  eexists. split; [reflexivity|]. split; [reflexivity|].
  unfold Gini_of. cbn [fst snd].
  split; [apply feqb_iff; vm_compute; reflexivity|].
  split; [apply feqb_iff; vm_compute; reflexivity|].
  intros H. apply feqb_iff in H. vm_compute in H. discriminate.
Qed.


(** ** The end-to-end scenario *)

Lemma Qsum_concat_pos (ls : list (list Q)) :
  ls <> [] -> Forall (fun l => 0 < Qsum l) ls -> 0 < Qsum (concat ls).
Proof.
  intros Hne H. induction H as [|l ls Hl Hls IH]; [congruence|].
  cbn [concat]. rewrite Qsum_app. destruct ls as [|l' ls'].
  - cbn [concat]. rewrite Qsum_nil. lra.
  - specialize (IH ltac:(discriminate)). lra.
Qed.

Lemma np_mean_pos (l : list Q) :
  0 < Qsum l -> exists m, np_mean l = Fin m /\ 0 < m.
Proof.
  intros Hpos.
  assert (Hne : l <> []) by (intros ->; rewrite Qsum_nil in Hpos; lra).
  rewrite np_mean_fin by assumption. eexists; split; [reflexivity|].
  apply Qlt_shift_div_l; [now apply Qlen_pos|]. lra.
Qed.

Lemma fdiv_pos (a b : Q) :
  0 < a -> 0 < b -> exists w, fdiv (Fin a) (Fin b) = Fin w /\ 0 < w.
Proof.
  intros Ha Hb. unfold fdiv. destruct (Qeq_bool b 0) eqn:Hz.
  - apply Qeq_bool_iff in Hz. lra.
  - eexists; split; [reflexivity|]. apply Qlt_shift_div_l; lra.
Qed.

Lemma calcSubpopAvg_length (data : list npfloat) (reference : list Q)
  (cutoffs : list (Q * Q)) :
  length (calcSubpopAvg data reference cutoffs) = length cutoffs.
Proof. unfold calcSubpopAvg. apply length_map. Qed.

(** The notebook's call on the small engine. *)
Example toy_run :
  exists r, notebook_run toy_engine = Ok r /\
    feq (AggWealthRatio_of r) (Fin (4 # 3)) /\
    shape2 (Lorenz_of r) = (2%nat, 203%nat) /\
    length (Avg_MPC_of r) = 5%nat.
Proof.
  unfold notebook_run. rewrite run_eq. cbv zeta. rewrite aggregate_eq.
  eexists. split; [reflexivity|].
  unfold AggWealthRatio_of, Lorenz_of, Avg_MPC_of. cbn [fst snd].
  split; [apply feqb_iff; vm_compute; reflexivity|].
  split.
  - unfold shape2. cbn [length]. now rewrite percentile_row_length.
  - apply calcSubpopAvg_length.
Qed.



(** ** getControls *)

Lemma for_each_app {S : Type} (l1 l2 : list nat) (body : nat -> S -> result S)
  (acc : S) :
  for_each (l1 ++ l2) body acc =
  (acc' <- for_each l1 body acc ;; for_each l2 body acc').
Proof.
  revert acc. induction l1 as [|t l1 IH]; intros acc; cbn; [reflexivity|].
  destruct (body t acc); cbn; [apply IH|reflexivity].
Qed.

Lemma for_range_succ {S : Type} (n : nat) (body : nat -> S -> result S) (acc : S) :
  for_range (Datatypes.S n) body acc =
  (acc' <- for_range n body acc ;; body n acc').
Proof.
  unfold for_range. rewrite seq_S, for_each_app. cbn [Nat.add].
  destruct (for_each (seq 0 n) body acc); cbn; [|reflexivity].
  now destruct (body n a).
Qed.

Lemma select_length {A : Type} (a : list A) (mask : list bool) :
  length a = length mask -> length (select a mask) = count_true mask.
Proof.
  revert mask. induction a as [|x a IH]; intros [|b mask] H; try discriminate.
  - reflexivity.
  - cbn in H. injection H as H. unfold count_true in *. cbn.
    destruct b; cbn; now rewrite IH.
Qed.

Lemma zip_with_length {A B C : Type} (f : A -> B -> C) (xs : list A) (ys : list B) :
  length xs = length ys -> length (zip_with f xs ys) = length xs.
Proof.
  revert ys. induction xs as [|x xs IH]; intros [|y ys] H; try discriminate.
  - reflexivity.
  - cbn in *. injection H as H. now rewrite IH.
Qed.

Lemma map3_length {A B C D : Type} (g : A -> B -> C -> D)
  (xs : list A) (ys : list B) (zs : list C) :
  length ys = length xs -> length zs = length xs ->
  length (map3 g xs ys zs) = length xs.
Proof.
  revert ys zs. induction xs as [|x xs IH]; intros [|y ys] [|z zs] Hy Hz;
    try discriminate; [reflexivity|].
  cbn in *. injection Hy as Hy. injection Hz as Hz. now rewrite IH.
Qed.

Lemma map3_ext_in {A B C D : Type} (g g' : A -> B -> C -> D)
  (xs : list A) (ys : list B) (zs : list C) :
  (forall x y z, In x xs -> g x y z = g' x y z) ->
  map3 g xs ys zs = map3 g' xs ys zs.
Proof.
  revert ys zs. induction xs as [|x xs IH]; intros [|y ys] [|z zs] H;
    try reflexivity.
  cbn. rewrite H by now left. f_equal. apply IH. intros. apply H. now right.
Qed.

Lemma map3_const {A B C D : Type} (d : D)
  (xs : list A) (ys : list B) (zs : list C) :
  length ys = length xs -> length zs = length xs ->
  map3 (fun _ _ _ => d) xs ys zs = repeat d (length xs).
Proof.
  revert ys zs. induction xs as [|x xs IH]; intros [|y ys] [|z zs] Hy Hz;
    try discriminate; [reflexivity|].
  cbn in *. injection Hy as Hy. injection Hz as Hz. now rewrite IH.
Qed.

Lemma map3_nth_error {A B C D : Type} (g : A -> B -> C -> D)
  (xs : list A) (ys : list B) (zs : list C) (i : nat) (x : A) (y : B) (z : C) :
  nth_error xs i = Some x -> nth_error ys i = Some y -> nth_error zs i = Some z ->
  nth_error (map3 g xs ys zs) i = Some (g x y z).
Proof.
  revert ys zs i. induction xs as [|x' xs IH]; intros [|y' ys] [|z' zs] [|i];
    cbn; try discriminate.
  - intros [= ->] [= ->] [= ->]. reflexivity.
  - apply IH.
Qed.

(** One masked assignment, agent by agent: the agents at period [k] take
    the new value, the others keep theirs. *)
Lemma assign_period {D : Type} (k : nat) (f : Q -> Q -> D) (g : nat -> Q -> Q -> D)
  (ts : list nat) (ms ps : list Q) :
  length ms = length ts -> length ps = length ts ->
  let these := map (Nat.eqb k) ts in
  assign (map3 g ts ms ps) these (zip_with f (select ms these) (select ps these))
  = map3 (fun t m p => if Nat.eqb k t then f m p else g t m p) ts ms ps.
Proof.
  cbv zeta. revert ms ps.
  induction ts as [|t ts IH]; intros [|m ms] [|p ps] Hm Hp; try discriminate;
    [reflexivity|].
  cbn in Hm, Hp. injection Hm as Hm. injection Hp as Hp.
  cbn [map map3 select assign]. destruct (Nat.eqb k t).
  - cbn [zip_with]. f_equal. now apply IH.
  - f_equal. now apply IH.
Qed.

Lemma np_getmask_ok {A : Type} (a : list A) (mask : list bool) :
  length a = length mask -> np_getmask a mask = Ok (select a mask).
Proof. intros H. unfold np_getmask. now rewrite H, Nat.eqb_refl. Qed.

Lemma np_setmask_ok {A : Type} (a : list A) (mask : list bool) (vals : list A) :
  length a = length mask -> length vals = count_true mask ->
  np_setmask a mask vals = Ok (assign a mask vals).
Proof. intros Ha Hv. unfold np_setmask. now rewrite Ha, Hv, !Nat.eqb_refl. Qed.

Lemma np_item_ok {A : Type} (a : list A) (i : nat) (x : A) :
  nth_error a i = Some x -> np_item a i = Ok x.
Proof. intros H. unfold np_item. now rewrite H. Qed.

Section GetControls.

Context (self : AgentType).
Hypothesis Ht : length (t_cycle self) = AgentCount self.
Hypothesis Hm : length (mLvlNow self) = AgentCount self.
Hypothesis Hp : length (pLvlNow self) = AgentCount self.

Lemma controls_after_length (k : nat) (pick : CFunc -> Q -> Q -> Q) :
  length (controls_after self k pick) = AgentCount self.
Proof.
  unfold controls_after. rewrite map3_length; congruence.
Qed.

Lemma controls_after_0 (pick : CFunc -> Q -> Q -> Q) :
  controls_after self 0 pick = repeat NaN (AgentCount self).
Proof.
  unfold controls_after. rewrite <- Ht.
  rewrite <- (map3_const NaN (t_cycle self) (mLvlNow self) (pLvlNow self))
    by congruence.
  apply map3_ext_in. reflexivity.
Qed.

(** One masked assignment of the loop body moves the array from "periods
    below [k] processed" to "periods below [k+1] processed". *)
Lemma controls_after_step (k : nat) (sol : Solution) (pick : CFunc -> Q -> Q -> Q) :
  nth_error (solution self) k = Some sol ->
  let these := map (Nat.eqb k) (t_cycle self) in
  np_setmask (controls_after self k pick) these
    (map Fin (zip_with (pick (cFunc sol)) (select (mLvlNow self) these)
                (select (pLvlNow self) these)))
  = Ok (controls_after self (S k) pick).
Proof.
  intros Hsol. cbv zeta.
  set (these := map (Nat.eqb k) (t_cycle self)).
  assert (Hlen : length these = AgentCount self)
    by (unfold these; rewrite length_map; exact Ht).
  rewrite np_setmask_ok.
  - f_equal. unfold controls_after.
    assert (Hz : forall (xs ys : list Q),
               map Fin (zip_with (pick (cFunc sol)) xs ys)
               = zip_with (fun m p => Fin (pick (cFunc sol) m p)) xs ys).
    { induction xs as [|x xs IH]; intros [|y ys]; cbn; try reflexivity.
      now rewrite IH. }
    rewrite Hz. unfold these. rewrite assign_period by congruence.
    apply map3_ext_in. intros t m p _.
    destruct (Nat.eqb_spec k t) as [<-|Hne].
    + rewrite (proj2 (Nat.ltb_lt k (S k))) by lia. now rewrite Hsol.
    + destruct (Nat.ltb_spec t k), (Nat.ltb_spec t (S k)); try lia; reflexivity.
  - rewrite controls_after_length. congruence.
  - rewrite length_map, zip_with_length; rewrite !select_length; congruence.
Qed.

(** The loop of [getControls] after its first [k] passes. *)
Lemma getControls_loop (k : nat) :
  (k <= length (solution self))%nat ->
  for_range k (getControls_step self)
    (repeat NaN (AgentCount self), repeat NaN (AgentCount self))
  = Ok (controls_after self k call, controls_after self k derivativeX).
Proof.
  induction k as [|k IH]; intros Hk.
  - cbn. now rewrite !controls_after_0.
  - rewrite for_range_succ, IH by lia. cbn [bind].
    destruct (nth_error (solution self) k) as [sol|] eqn:Hsol.
    2:{ apply nth_error_None in Hsol. lia. }
    unfold getControls_step.
    rewrite (np_item_ok _ _ _ Hsol). cbn [bind].
    rewrite !np_getmask_ok by (rewrite length_map; congruence). cbn [bind].
    rewrite (controls_after_step k sol call Hsol). cbn [bind].
    rewrite (controls_after_step k sol derivativeX Hsol). reflexivity.
Qed.

End GetControls.

(** C10: with the state arrays as long as the agent count and a decision
    rule for every period of the cycle, [getControls] returns, and
    leaves two arrays as long as the agent count; an agent at a period
    [t] of the cycle holds the period's consumption function at its
    (cash on hand, permanent income) and that function's derivative in
    cash on hand; an agent at a period the loop does not reach holds nan
    in both.  The same holds after any number [k] of passes, with [k] in
    place of the length of the cycle. *)
Theorem getControls_spec (self : AgentType) :
  length (t_cycle self) = AgentCount self ->
  length (mLvlNow self) = AgentCount self ->
  length (pLvlNow self) = AgentCount self ->
  (T_cycle self <= length (solution self))%nat ->
  exists self',
    getControls self = Ok self' /\
    length (cLvlNow self') = AgentCount self /\
    length (MPCnow self') = AgentCount self /\
    (forall i t m p,
        nth_error (t_cycle self) i = Some t ->
        nth_error (mLvlNow self) i = Some m ->
        nth_error (pLvlNow self) i = Some p ->
        (t < T_cycle self)%nat ->
        exists sol,
          nth_error (solution self) t = Some sol /\
          nth_error (cLvlNow self') i = Some (Fin (call (cFunc sol) m p)) /\
          nth_error (MPCnow self') i = Some (Fin (derivativeX (cFunc sol) m p))) /\
    (forall i t,
        nth_error (t_cycle self) i = Some t ->
        (T_cycle self <= t)%nat ->
        nth_error (cLvlNow self') i = Some NaN /\
        nth_error (MPCnow self') i = Some NaN) /\
    (forall k, (k <= T_cycle self)%nat ->
        for_range k (getControls_step self)
          (repeat NaN (AgentCount self), repeat NaN (AgentCount self))
        = Ok (controls_after self k call, controls_after self k derivativeX)).
Proof.
  intros Ht Hm Hp Hsol.
  unfold getControls. rewrite (getControls_loop self Ht Hm Hp) by exact Hsol.
  cbn [bind fst snd]. eexists. split; [reflexivity|].
  cbn [cLvlNow MPCnow set_controls].
  split; [now apply controls_after_length|].
  split; [now apply controls_after_length|].
  split; [|split].
  - intros i t m p Hti Hmi Hpi Hlt.
    destruct (nth_error (solution self) t) as [sol|] eqn:Hs.
    2:{ apply nth_error_None in Hs. lia. }
    exists sol. split; [reflexivity|].
    unfold controls_after.
    rewrite !(map3_nth_error _ _ _ _ i t m p Hti Hmi Hpi).
    rewrite (proj2 (Nat.ltb_lt _ _) Hlt), Hs. now split.
  - intros i t Hti Hge.
    assert (Hi : (i < AgentCount self)%nat).
    { rewrite <- Ht. apply nth_error_Some. congruence. }
    destruct (nth_error (mLvlNow self) i) as [m|] eqn:Hmi.
    2:{ apply nth_error_None in Hmi. lia. }
    destruct (nth_error (pLvlNow self) i) as [p|] eqn:Hpi.
    2:{ apply nth_error_None in Hpi. lia. }
    unfold controls_after.
    rewrite !(map3_nth_error _ _ _ _ i t m p Hti Hmi Hpi).
    rewrite (proj2 (Nat.ltb_ge _ _) Hge). now split.
  - intros k Hk. apply getControls_loop; auto. lia.
Qed.

Lemma getControls_spec_witness :
  exists self',
    getControls toy_agent = Ok self' /\
    length (cLvlNow self') = AgentCount toy_agent /\
    length (MPCnow self') = AgentCount toy_agent /\
    (forall i t m p,
        nth_error (t_cycle toy_agent) i = Some t ->
        nth_error (mLvlNow toy_agent) i = Some m ->
        nth_error (pLvlNow toy_agent) i = Some p ->
        (t < T_cycle toy_agent)%nat ->
        exists sol,
          nth_error (solution toy_agent) t = Some sol /\
          nth_error (cLvlNow self') i = Some (Fin (call (cFunc sol) m p)) /\
          nth_error (MPCnow self') i = Some (Fin (derivativeX (cFunc sol) m p))) /\
    (forall i t,
        nth_error (t_cycle toy_agent) i = Some t ->
        (T_cycle toy_agent <= t)%nat ->
        nth_error (cLvlNow self') i = Some NaN /\
        nth_error (MPCnow self') i = Some NaN) /\
    (forall k, (k <= T_cycle toy_agent)%nat ->
        for_range k (getControls_step toy_agent)
          (repeat NaN (AgentCount toy_agent), repeat NaN (AgentCount toy_agent))
        = Ok (controls_after toy_agent k call, controls_after toy_agent k derivativeX)).
Proof.
  apply (getControls_spec toy_agent); reflexivity.
Defined.

(** The small type, run: the agent at period 1 takes the second rule,
    the agent at period 0 the first, the agent at period 5 stays nan. *)
Example getControls_toy_agent :
  exists self', getControls toy_agent = Ok self' /\
    cLvlNow self' = [Fin ((2 # 10) * 10); Fin ((1 # 10) * 20 + 2); NaN] /\
    MPCnow self' = [Fin (2 # 10); Fin (1 # 10); NaN].
Proof. eexists. split; [reflexivity|]. split; reflexivity. Qed.

(** ** Reordering the population *)

Lemma feq_refl (x : npfloat) : feq x x.
Proof. destruct x; cbn; auto. reflexivity. Qed.

Lemma Forall2_feq_refl (l : list npfloat) : Forall2 feq l l.
Proof. induction l; constructor; auto using feq_refl. Qed.

Lemma inf_of_sign_Qeq (a a' : Q) : a == a' -> inf_of_sign a = inf_of_sign a'.
Proof. intros H. unfold inf_of_sign. now rewrite H. Qed.

Lemma Qeq_bool_Qeq (a a' b : Q) : a == a' -> Qeq_bool a b = Qeq_bool a' b.
Proof.
  intros H. destruct (Qeq_bool a b) eqn:E1, (Qeq_bool a' b) eqn:E2; try reflexivity.
  - apply Qeq_bool_iff in E1. apply Qeq_bool_neq in E2. exfalso. apply E2.
    now rewrite <- H.
  - apply Qeq_bool_iff in E2. apply Qeq_bool_neq in E1. exfalso. apply E1.
    now rewrite H.
Qed.

Lemma Qle_bool_Qeq (a b b' : Q) : b == b' -> Qle_bool a b = Qle_bool a b'.
Proof.
  intros H. destruct (Qle_bool a b) eqn:E1, (Qle_bool a b') eqn:E2; try reflexivity.
  - apply Qle_bool_iff in E1. rewrite H in E1. apply Qle_bool_iff in E1. congruence.
  - apply Qle_bool_iff in E2. rewrite <- H in E2. apply Qle_bool_iff in E2.
    congruence.
Qed.

Lemma fdiv_feq (x x' y y' : npfloat) :
  feq x x' -> feq y y' -> feq (fdiv x y) (fdiv x' y').
Proof.
  destruct x as [a| | |], x' as [a'| | |]; cbn [feq]; try contradiction;
    destruct y as [b| | |], y' as [b'| | |]; cbn [feq]; try contradiction;
    intros Hx Hy; cbn [fdiv]; try exact I; try reflexivity.
  - rewrite (Qeq_bool_Qeq b b' 0 Hy). destruct (Qeq_bool b' 0) eqn:Hz.
    + rewrite (inf_of_sign_Qeq a a' Hx). apply feq_refl.
    + cbn. now rewrite Hx, Hy.
  - rewrite (Qle_bool_Qeq 0 b b' Hy). apply feq_refl.
  - rewrite (Qle_bool_Qeq 0 b b' Hy). apply feq_refl.
Qed.

Lemma np_mean_perm (l l' : list Q) :
  Permutation l l' -> feq (np_mean l) (np_mean l').
Proof.
  intros H. unfold np_mean. apply fdiv_feq; cbn.
  - now apply Qsum_perm.
  - unfold Qlen. now rewrite (Permutation_length H).
Qed.

(** The sorted array does not depend on the order of the input, up to
    the equality of rationals. *)
Lemma insert_Forall2_Qeq (x x' : Q) (l l' : list Q) :
  x == x' -> Forall2 Qeq l l' ->
  Forall2 Qeq (insert_by (fun q => q) x l) (insert_by (fun q => q) x' l').
Proof.
  intros Hx H. induction H as [|h h' t t' Hh Ht IH]; cbn.
  - now repeat constructor.
  - rewrite (Qle_bool_Qeq x h h' Hh).
    destruct (Qle_bool x h') eqn:E1, (Qle_bool x' h') eqn:E2.
    + repeat constructor; assumption.
    + apply Qle_bool_iff in E1. rewrite Hx in E1. apply Qle_bool_iff in E1.
      congruence.
    + apply Qle_bool_iff in E2. rewrite <- Hx in E2. apply Qle_bool_iff in E2.
      congruence.
    + constructor; assumption.
Qed.

Lemma Forall2_Qeq_refl (l : list Q) : Forall2 Qeq l l.
Proof. induction l; constructor; auto. reflexivity. Qed.

Lemma Forall2_Qeq_trans (l1 l2 l3 : list Q) :
  Forall2 Qeq l1 l2 -> Forall2 Qeq l2 l3 -> Forall2 Qeq l1 l3.
Proof.
  intros H. revert l3. induction H as [|a b l1 l2 Hab H IH]; intros l3 H3;
    inversion H3; subst; constructor.
  - etransitivity; eassumption.
  - now apply IH.
Qed.

Lemma insert_comm_Qeq (x y : Q) (l : list Q) :
  Forall2 Qeq (insert_by (fun q => q) x (insert_by (fun q => q) y l))
              (insert_by (fun q => q) y (insert_by (fun q => q) x l)).
Proof.
  induction l as [|h t IH]; cbn.
  - Qle_bool_cases; repeat constructor; lra.
  - Qle_bool_cases; cbn; Qle_bool_cases;
      try (exfalso; lra);
      repeat (constructor; try reflexivity; try lra);
      try apply Forall2_Qeq_refl; try exact IH.
Qed.

Lemma np_sort_perm_Qeq (l l' : list Q) :
  Permutation l l' -> Forall2 Qeq (np_sort l) (np_sort l').
Proof.
  unfold np_sort. induction 1; cbn.
  - constructor.
  - apply insert_Forall2_Qeq; [reflexivity|assumption].
  - apply insert_comm_Qeq.
  - eapply Forall2_Qeq_trans; eassumption.
Qed.

Lemma Forall2_firstn {A : Type} (R : A -> A -> Prop) (k : nat) (l l' : list A) :
  Forall2 R l l' -> Forall2 R (firstn k l) (firstn k l').
Proof.
  intros H. revert k. induction H; intros [|k]; cbn; constructor; auto.
Qed.

Lemma Qsum_Forall2 (l l' : list Q) : Forall2 Qeq l l' -> Qsum l == Qsum l'.
Proof.
  induction 1 as [|a b l l' Hab H IH]; [reflexivity|].
  rewrite !Qsum_cons, Hab, IH. reflexivity.
Qed.

Lemma lorenz_share_perm (l l' : list Q) (p : Q) :
  Permutation l l' -> feq (lorenz_share l p) (lorenz_share l' p).
Proof.
  intros H. unfold lorenz_share. apply fdiv_feq; cbn [feq].
  - rewrite (Permutation_length H).
    apply Qsum_Forall2, Forall2_firstn, np_sort_perm_Qeq, H.
  - now apply Qsum_perm.
Qed.

Lemma share_row_perm (l l' : list Q) :
  Permutation l l' -> Forall2 feq (share_row l) (share_row l').
Proof.
  intros H. unfold share_row, getLorenzShares. cbn [app].
  constructor; [reflexivity|]. apply Forall2_app; [|repeat constructor; reflexivity].
  induction wealth_percentile as [|p ps IH]; cbn; constructor; auto.
  now apply lorenz_share_perm.
Qed.

Section DistinctKeys.

Context {A : Type} (key : A -> Q).

Lemma insert_comm_distinct (x y : A) (l : list A) :
  ~ key x == key y ->
  insert_by key x (insert_by key y l) = insert_by key y (insert_by key x l).
Proof.
  intros Hxy. induction l as [|h t IH]; cbn.
  - Qle_bool_cases; try reflexivity; exfalso; apply Hxy; lra.
  - Qle_bool_cases; cbn; Qle_bool_cases; try reflexivity;
      try (exfalso; lra); try (exfalso; apply Hxy; lra).
    now rewrite IH.
Qed.

Lemma distinct_keys_perm (l l' : list A) :
  Permutation l l' -> distinct_keys key l -> distinct_keys key l'.
Proof.
  induction 1 as [|x l l' H IH|x y l|l l' l'' H1 IH1 H2 IH2]; cbn.
  - auto.
  - intros [Hx Hl]. split; [|auto].
    eapply Permutation_Forall; eassumption.
  - intros [Hy [Hx Hl]]. inversion Hy as [|? ? Hyx Hyl]; subst.
    repeat split; try assumption.
    constructor; [|assumption]. intros Heq. apply Hyx. now symmetry.
  - auto.
Qed.

(** With pairwise distinct keys the sorted array does not depend on the
    order of the input. *)
Lemma sort_by_perm_distinct (l l' : list A) :
  Permutation l l' -> distinct_keys key l -> sort_by key l = sort_by key l'.
Proof.
  induction 1 as [|x l l' H IH|x y l|l l' l'' H1 IH1 H2 IH2]; cbn.
  - reflexivity.
  - intros [_ Hl]. now rewrite IH.
  - intros [Hy _]. inversion Hy as [|? ? Hyx _]; subst.
    now apply insert_comm_distinct.
  - intros Hl. rewrite IH1 by assumption. apply IH2.
    eapply distinct_keys_perm; eassumption.
Qed.

End DistinctKeys.

Lemma insert_by_map {A B : Type} (key : B -> Q) (h : A -> B) (x : A) (l : list A) :
  insert_by key (h x) (map h l) = map h (insert_by (fun a => key (h a)) x l).
Proof.
  induction l as [|y t IH]; cbn; [reflexivity|].
  destruct (Qle_bool (key (h x)) (key (h y))); cbn; [reflexivity|].
  now rewrite IH.
Qed.

Lemma sort_by_map {A B : Type} (key : B -> Q) (h : A -> B) (l : list A) :
  sort_by key (map h l) = map h (sort_by (fun a => key (h a)) l).
Proof.
  induction l as [|x t IH]; cbn; [reflexivity|].
  now rewrite IH, insert_by_map.
Qed.

Lemma combine_map_map {A B C : Type} (f : A -> B) (g : A -> C) (l : list A) :
  combine (map f l) (map g l) = map (fun a => (f a, g a)) l.
Proof. induction l; cbn; congruence. Qed.

(** The average MPC by income group, in terms of the population. *)
Lemma calcSubpopAvg_rows (pop : list AgentRow) (cutoffs : list (Q * Q)) :
  calcSubpopAvg (map row_MPC pop) (map row_pLvl pop) cutoffs =
  let data_sorted := map row_MPC (sort_by row_pLvl pop) in
  let N := length pop in
  map (fun c => np_fmean (slice data_sorted (rank_of (fst c) N) (rank_of (snd c) N)))
      cutoffs.
Proof.
  unfold calcSubpopAvg. rewrite combine_map_map, sort_by_map, map_map.
  cbn [fst snd]. rewrite !length_map, sort_by_length. reflexivity.
Qed.



Lemma small_pop_distinct : distinct_keys row_pLvl small_pop.
Proof. cbn. repeat split; repeat constructor; discriminate. Defined.


(** * Further properties of the code *)

(** ** getControls: when it returns, what it raises, what it touches *)

Lemma masked_values_length (f : Q -> Q -> Q) (ms ps : list Q) (mask : list bool) :
  length ms = length mask -> length ps = length mask ->
  length (map Fin (zip_with f (select ms mask) (select ps mask))) = count_true mask.
Proof.
  intros Hm Hp. rewrite length_map, zip_with_length; rewrite !select_length; congruence.
Qed.

(** Inside one pass the values assigned are as many as the mask selects,
    so a pass can only fail on an index. *)
Lemma getControls_step_raises (self : AgentType) (t : nat)
  (acc : list npfloat * list npfloat) (e : exn) :
  getControls_step self t acc = Raise e -> e = IndexError.
Proof.
  destruct acc as [c m]. unfold getControls_step, np_item, np_getmask, np_setmask.
  set (these := map (Nat.eqb t) (t_cycle self)).
  destruct (nth_error (solution self) t) as [sol|]; cbn [bind]; [|congruence].
  destruct (Nat.eqb_spec (length (mLvlNow self)) (length these)) as [Hm|_];
    cbn [bind]; [|congruence].
  destruct (Nat.eqb_spec (length (pLvlNow self)) (length these)) as [Hp|_];
    cbn [bind]; [|congruence].
  destruct (Nat.eqb_spec (length c) (length these)) as [Hc|_];
    cbn [negb bind]; [|congruence].
  rewrite !masked_values_length by assumption. rewrite Nat.eqb_refl. cbn [negb bind].
  destruct (Nat.eqb_spec (length m) (length these)) as [Hmm|_];
    cbn [negb bind]; [|congruence].
  discriminate.
Qed.

(** A pass that returns has found its decision rule and arrays of one
    length. *)
Lemma getControls_step_returns (self : AgentType) (t : nat)
  (c m : list npfloat) (acc' : list npfloat * list npfloat) :
  getControls_step self t (c, m) = Ok acc' ->
  nth_error (solution self) t <> None /\
  length (mLvlNow self) = length (t_cycle self) /\
  length (pLvlNow self) = length (t_cycle self) /\
  length c = length (t_cycle self) /\
  length m = length (t_cycle self).
Proof.
  unfold getControls_step, np_item, np_getmask, np_setmask.
  set (these := map (Nat.eqb t) (t_cycle self)).
  assert (Hlen : length these = length (t_cycle self))
    by (unfold these; apply length_map).
  destruct (nth_error (solution self) t) as [sol|]; cbn [bind]; [|discriminate].
  destruct (Nat.eqb_spec (length (mLvlNow self)) (length these)) as [Hm|_];
    cbn [bind]; [|discriminate].
  destruct (Nat.eqb_spec (length (pLvlNow self)) (length these)) as [Hp|_];
    cbn [bind]; [|discriminate].
  destruct (Nat.eqb_spec (length c) (length these)) as [Hc|_];
    cbn [negb bind]; [|discriminate].
  rewrite !masked_values_length by assumption. rewrite Nat.eqb_refl. cbn [negb bind].
  destruct (Nat.eqb_spec (length m) (length these)) as [Hmm|_];
    cbn [negb bind]; [|discriminate].
  intros _. repeat split; congruence.
Qed.

Lemma for_each_raises {S : Type} (ts : list nat) (body : nat -> S -> result S)
  (acc : S) (e : exn) :
  (forall t a e', body t a = Raise e' -> e' = IndexError) ->
  for_each ts body acc = Raise e -> e = IndexError.
Proof.
  intros Hbody. revert acc. induction ts as [|t ts IH]; intros acc; cbn.
  - discriminate.
  - destruct (body t acc) eqn:Hb; cbn [bind]; [apply IH|].
    intros [= <-]. eapply Hbody, Hb.
Qed.

(** X1: [getControls] returns exactly when the cycle is empty, or the three
    state arrays are as long as the agent count and there is a decision
    rule for every period of the cycle; when it does not return, what it
    raises is an IndexError. *)
Theorem getControls_returns_iff (self : AgentType) :
  ((exists self', getControls self = Ok self') <->
   (T_cycle self = 0%nat \/
    (length (t_cycle self) = AgentCount self /\
     length (mLvlNow self) = AgentCount self /\
     length (pLvlNow self) = AgentCount self /\
     (T_cycle self <= length (solution self))%nat))) /\
  (forall e, getControls self = Raise e -> e = IndexError).
Proof.
  split; [split|].
  - intros [self' H]. unfold getControls in H.
    destruct (for_range (T_cycle self) (getControls_step self)
                (repeat NaN (AgentCount self), repeat NaN (AgentCount self)))
      as [acc|] eqn:Hloop; [clear H|discriminate].
    destruct (T_cycle self) as [|n]; [now left|right].
    assert (H0 : exists acc0, getControls_step self 0
                   (repeat NaN (AgentCount self), repeat NaN (AgentCount self))
                 = Ok acc0).
    { unfold for_range in Hloop. cbn [seq for_each] in Hloop.
      destruct (getControls_step self 0 _) as [acc0|]; [now exists acc0|discriminate]. }
    destruct H0 as [acc0 H0].
    apply getControls_step_returns in H0. destruct H0 as (_ & Hm & Hp & Hc & _).
    rewrite repeat_length in Hc.
    rewrite for_range_succ in Hloop.
    destruct (for_range n (getControls_step self) _) as [[c1 m1]|];
      cbn [bind] in Hloop; [|discriminate].
    apply getControls_step_returns in Hloop. destruct Hloop as (Hs & _).
    apply nth_error_Some in Hs. repeat split; (congruence || lia).
  - intros [H0|(Ht & Hm & Hp & Hs)]; unfold getControls.
    + rewrite H0. cbn. eexists; reflexivity.
    + rewrite (getControls_loop self Ht Hm Hp) by exact Hs. cbn [bind].
      eexists; reflexivity.
  - intros e H. unfold getControls in H.
    destruct (for_range (T_cycle self) (getControls_step self) _) as [acc|e']
      eqn:Hloop; cbn [bind] in H; [discriminate|].
    injection H as <-. unfold for_range in Hloop.
    eapply for_each_raises; [|exact Hloop]. apply getControls_step_raises.
Qed.

(** X2: [getControls] rewrites the two arrays of controls and nothing else,
    and it does not read them: called again on its own result it
    returns that result. *)
Theorem getControls_overwrites (self self' : AgentType) :
  getControls self = Ok self' ->
  (DiscFac self' = DiscFac self /\ PrstIncCorr self' = PrstIncCorr self /\
   AgentCount self' = AgentCount self /\ T_cycle self' = T_cycle self /\
   T_sim self' = T_sim self /\ pLvlNextFunc self' = pLvlNextFunc self /\
   solution self' = solution self /\ t_cycle self' = t_cycle self /\
   mLvlNow self' = mLvlNow self /\ pLvlNow self' = pLvlNow self /\
   aLvlNow self' = aLvlNow self /\ history self' = history self) /\
  getControls self' = Ok self'.
Proof.
  unfold getControls at 1.
  destruct (for_range (T_cycle self) (getControls_step self) _) as [acc|] eqn:Hloop;
    cbn [bind]; [|discriminate].
  intros [= <-]. split; [repeat split; reflexivity|].
  change (getControls (set_controls self (fst acc) (snd acc)))
    with (getControls self).
  unfold getControls. rewrite Hloop. reflexivity.
Qed.

Lemma getControls_overwrites_witness :
  exists self',
    getControls toy_agent = Ok self' /\
    history self' = history toy_agent /\
    getControls self' = Ok self'.
Proof.
  eexists. split; [reflexivity|].
  destruct (getControls_overwrites toy_agent _ eq_refl) as [Hframe Hagain].
  split; [apply Hframe|exact Hagain].
Defined.



(** ** The aggregation: how its results relate to the arrays and to each other *)



Lemma StronglySorted_map_seq_strict {B : Type} (R : B -> B -> Prop) (f : nat -> B)
  (a n : nat) :
  (forall i j, (a <= i < j)%nat -> (j < a + n)%nat -> R (f i) (f j)) ->
  StronglySorted R (map f (seq a n)).
Proof.
  revert a. induction n as [|n IH]; intros a Hmono; cbn; constructor.
  - apply IH. intros i j Hij Hj. apply Hmono; lia.
  - apply Forall_map, Forall_forall. intros j Hj. apply in_seq in Hj.
    apply Hmono; lia.
Qed.

Lemma percentile_at_bounds (i : nat) :
  (i < 201)%nat -> 0 < percentile_at i /\ percentile_at i < 1.
Proof.
  intros Hi. unfold percentile_at.
  assert (Hs : ((999 # 1000) - (1 # 1000)) / inject_Z 200 == 499 # 100000)
    by reflexivity.
  rewrite Hs.
  assert (H0 : inject_Z 0 <= inject_Z (Z.of_nat i)) by (rewrite <- Zle_Qle; lia).
  assert (H1 : inject_Z (Z.of_nat i) <= inject_Z 200) by (rewrite <- Zle_Qle; lia).
  change (inject_Z 0) with 0 in H0. change (inject_Z 200) with 200 in H1.
  split; lra.
Qed.

Lemma percentile_at_strict (i j : nat) :
  (i < j)%nat -> percentile_at i < percentile_at j.
Proof.
  intros Hij. unfold percentile_at.
  assert (Hs : ((999 # 1000) - (1 # 1000)) / inject_Z 200 == 499 # 100000)
    by reflexivity.
  rewrite Hs.
  assert (Hq : inject_Z (Z.of_nat i) < inject_Z (Z.of_nat j)).
  { rewrite <- Zlt_Qlt. lia. }
  lra.
Qed.

(** X5: The percentile row of the Lorenz array is the same for every input:
    0, the 201 interior points, 1, strictly increasing; and the share
    row has as many entries. *)
Theorem percentile_axis_fixed (aLvl_all : list Q) (MPC_all : list npfloat)
  (pLvl_all : list Q) :
  exists r L, aggregate aLvl_all MPC_all pLvl_all = Ok r /\
    Lorenz_of r = [map Fin (0 :: wealth_percentile ++ [1]); L] /\
    StronglySorted Qlt (0 :: wealth_percentile ++ [1]) /\
    length L = length (0 :: wealth_percentile ++ [1]).
Proof.
  rewrite aggregate_eq. do 2 eexists. split; [reflexivity|].
  split.
  { unfold Lorenz_of, percentile_row. cbn [fst snd app map].
    rewrite map_app. reflexivity. }
  split.
  - constructor.
    + apply StronglySorted_snoc.
      * rewrite wealth_percentile_seq. apply StronglySorted_map_seq_strict.
        intros i j Hij _. apply percentile_at_strict. lia.
      * rewrite wealth_percentile_seq. apply Forall_map, Forall_forall.
        intros i Hi. apply in_seq in Hi. apply percentile_at_bounds. lia.
    + apply Forall_app. split; [|repeat constructor].
      rewrite wealth_percentile_seq. apply Forall_map, Forall_forall.
      intros i Hi. apply in_seq in Hi. apply percentile_at_bounds. lia.
  - rewrite share_row_length. cbn [length]. rewrite length_app, wealth_percentile_length.
    reflexivity.
Qed.

Lemma Qsum_zero_iff (l : list Q) :
  Forall (Qle 0) l -> (Qsum l == 0 <-> Forall (fun a => a == 0) l).
Proof.
  induction 1 as [|a l Ha Hl IH]; [split; [constructor|reflexivity]|].
  rewrite Qsum_cons. pose proof (Qsum_nonneg l Hl) as Hs. split.
  - intros H. constructor; [lra|]. apply IH. lra.
  - intros H. inversion H as [|? ? Ha0 Hl0]; subst. apply IH in Hl0. lra.
Qed.



Lemma Qsum_all_zero (l : list Q) : Forall (fun a => a == 0) l -> Qsum l == 0.
Proof.
  induction 1 as [|a l Ha Hl IH]; [reflexivity|]. rewrite Qsum_cons. lra.
Qed.

Lemma map_const_repeat {A B : Type} (c : B) (l : list A) :
  map (fun _ => c) l = repeat c (length l).
Proof. induction l; cbn; congruence. Qed.

(** X7: When every agent holds zero assets (also when there is no agent) the
    function still returns: each interior share of the Lorenz curve is
    nan, and so is the Gini coefficient. *)
Theorem zero_assets_give_nan (aLvl_all : list Q) (MPC_all : list npfloat)
  (pLvl_all : list Q) :
  Forall (fun a => a == 0) aLvl_all ->
  exists r, aggregate aLvl_all MPC_all pLvl_all = Ok r /\
    Lorenz_of r = [percentile_row; [Fin 0] ++ repeat NaN 201 ++ [Fin 1]] /\
    Gini_of r = NaN.
Proof.
  intros Hz.
  assert (Hshare : forall p, lorenz_share aLvl_all p = NaN).
  { intros p. unfold lorenz_share, fdiv.
    pose proof (Qsum_all_zero _ Hz) as HT.
    rewrite (proj2 (Qeq_bool_iff _ _) HT).
    assert (HF : Qsum (firstn (rank_of p (length aLvl_all)) (np_sort aLvl_all)) == 0).
    { apply Qsum_all_zero, Forall_prefix.
      eapply Permutation_Forall; [symmetry; apply np_sort_perm|exact Hz]. }
    unfold inf_of_sign. apply (proj1 (Qeq_alt _ _)) in HF. now rewrite HF. }
  rewrite aggregate_eq. eexists. split; [reflexivity|].
  unfold Lorenz_of, Gini_of. cbn [fst snd]. rewrite Hshare. split; [|reflexivity].
  unfold share_row, getLorenzShares.
  rewrite (map_ext _ (fun _ => NaN) Hshare), map_const_repeat,
    wealth_percentile_length.
  reflexivity.
Qed.

Lemma zero_assets_give_nan_witness :
  exists r, aggregate [0; 0] [Fin (1 # 2); Fin (1 # 4)] [1; 2] = Ok r /\
    Lorenz_of r = [percentile_row; [Fin 0] ++ repeat NaN 201 ++ [Fin 1]] /\
    Gini_of r = NaN.
Proof.
  apply (zero_assets_give_nan [0; 0] [Fin (1 # 2); Fin (1 # 4)] [1; 2]).
  repeat constructor.
Defined.

(** ** The experiment: what reaches the aggregates *)

(** The state one pass of the loop leaves, in terms of the engine. *)
Lemma make_type_state (E : Engine) (d : Dict) (CorrAct CorrPcvd : Q) :
  state_of (make_type E d CorrAct CorrPcvd) =
  run_sim E (key_DiscFac d) CorrAct (make_pLvlNextFunc E CorrAct)
    (solve_model E (key_DiscFac d) CorrPcvd (make_pLvlNextFunc E CorrPcvd))
    100 (init_sim E (key_AgentCount d)).
Proof. destruct d as [beta corr n tc ts]. reflexivity. Qed.

(** One pass of the loop with the engine changed in its consumption
    array only: assets, MPC and permanent income are the same. *)
Lemma with_cLvlNow_same (E : Engine) (g : list npfloat -> list npfloat) (d : Dict)
  (CorrAct CorrPcvd : Q) :
  aLvlNow (make_type (with_cLvlNow E g) d CorrAct CorrPcvd)
    = aLvlNow (make_type E d CorrAct CorrPcvd) /\
  MPCnow (make_type (with_cLvlNow E g) d CorrAct CorrPcvd)
    = MPCnow (make_type E d CorrAct CorrPcvd) /\
  pLvlNow (make_type (with_cLvlNow E g) d CorrAct CorrPcvd)
    = pLvlNow (make_type E d CorrAct CorrPcvd).
Proof.
  pose proof (make_type_state (with_cLvlNow E g) d CorrAct CorrPcvd) as H'.
  pose proof (make_type_state E d CorrAct CorrPcvd) as H.
  set (ag' := make_type (with_cLvlNow E g) d CorrAct CorrPcvd) in *.
  set (ag := make_type E d CorrAct CorrPcvd) in *.
  change (sim_aLvlNow (state_of ag') = sim_aLvlNow (state_of ag) /\
          sim_MPCnow (state_of ag') = sim_MPCnow (state_of ag) /\
          sim_pLvlNow (state_of ag') = sim_pLvlNow (state_of ag)).
  rewrite H', H. repeat split; reflexivity.
Qed.

(** X8: The consumption levels are concatenated and then never used: an
    engine that simulates other consumption levels, everything else
    equal, gives the same four results. *)
Theorem consumption_never_used (E : Engine) (g : list npfloat -> list npfloat)
  (CorrAct CorrPcvd c s : Q) :
  runRoszypalSchlaffmanExperiment (with_cLvlNow E g) CorrAct CorrPcvd c s =
  runRoszypalSchlaffmanExperiment E CorrAct CorrPcvd c s.
Proof.
  rewrite !run_eq. cbv zeta. rewrite !make_type_list_eq, !map_map.
  rewrite (map_ext _ _ (fun beta => proj1 (with_cLvlNow_same E g _ CorrAct CorrPcvd))).
  rewrite (map_ext _ _ (fun beta =>
             proj1 (proj2 (with_cLvlNow_same E g _ CorrAct CorrPcvd)))).
  rewrite (map_ext _ _ (fun beta =>
             proj2 (proj2 (with_cLvlNow_same E g _ CorrAct CorrPcvd)))).
  reflexivity.
Qed.

Lemma length_concat_const {A : Type} (n : nat) (ls : list (list A)) :
  Forall (fun l => length l = n) ls -> length (concat ls) = (length ls * n)%nat.
Proof.
  induction 1 as [|l ls Hl Hls IH]; [reflexivity|].
  cbn [concat length]. rewrite length_app, IH, Hl. lia.
Qed.

(** X9: With an engine that keeps one entry per agent, each flat array has
    seven times the agent count of the baseline dictionary: every type
    is built with that count, whatever the four inputs. *)
Theorem population_is_seven_types (E : Engine) (CorrAct CorrPcvd c s : Q) :
  keeps_agent_count E ->
  let type_list := make_type_list E CorrAct CorrPcvd c s in
  length (concat (map aLvlNow type_list)) = (7 * key_AgentCount BaselineDict)%nat /\
  length (concat (map MPCnow type_list)) = (7 * key_AgentCount BaselineDict)%nat /\
  length (concat (map pLvlNow type_list)) = (7 * key_AgentCount BaselineDict)%nat.
Proof.
  intros [Hinit Hrun]. cbv zeta.
  assert (H7 : forall (B : Type) (f : AgentType -> list B),
             length (map f (make_type_list E CorrAct CorrPcvd c s)) = 7%nat).
  { intros B f. now rewrite length_map, make_type_list_length. }
  repeat split.
  - rewrite (length_concat_const (key_AgentCount BaselineDict)); [now rewrite H7|].
    rewrite make_type_list_eq, map_map. apply Forall_map, Forall_forall.
    intros beta _. cbn [make_type aLvlNow simulate load_state].
    rewrite (proj1 (Hrun _ _ _ _ _ _)). apply Hinit.
  - rewrite (length_concat_const (key_AgentCount BaselineDict)); [now rewrite H7|].
    rewrite make_type_list_eq, map_map. apply Forall_map, Forall_forall.
    intros beta _. cbn [make_type MPCnow simulate load_state].
    rewrite (proj1 (proj2 (Hrun _ _ _ _ _ _))). apply Hinit.
  - rewrite (length_concat_const (key_AgentCount BaselineDict)); [now rewrite H7|].
    rewrite make_type_list_eq, map_map. apply Forall_map, Forall_forall.
    intros beta _. cbn [make_type pLvlNow simulate load_state].
    rewrite (proj2 (proj2 (Hrun _ _ _ _ _ _))). apply Hinit.
Qed.

Lemma sized_engine_keeps_agent_count : keeps_agent_count sized_engine.
Proof.
  split.
  - intros n. cbn. now rewrite !repeat_length.
  - intros beta corr f sol T st. cbn. auto.
Defined.

Lemma population_is_seven_types_witness :
  length (concat (map aLvlNow (make_type_list sized_engine (97 # 100) (9831 # 10000)
                                 (9867 # 10000) (67 # 10000))))
    = (7 * key_AgentCount BaselineDict)%nat /\
  length (concat (map MPCnow (make_type_list sized_engine (97 # 100) (9831 # 10000)
                                (9867 # 10000) (67 # 10000))))
    = (7 * key_AgentCount BaselineDict)%nat /\
  length (concat (map pLvlNow (make_type_list sized_engine (97 # 100) (9831 # 10000)
                                 (9867 # 10000) (67 # 10000))))
    = (7 * key_AgentCount BaselineDict)%nat.
Proof.
  exact (population_is_seven_types sized_engine (97 # 100) (9831 # 10000)
           (9867 # 10000) (67 # 10000) sized_engine_keeps_agent_count).
Defined.

(** ** Changing the unit of assets *)

Lemma insert_by_ext {A : Type} (key key' : A -> Q) (x : A) (l : list A) :
  (forall a b, Qle_bool (key a) (key b) = Qle_bool (key' a) (key' b)) ->
  insert_by key x l = insert_by key' x l.
Proof.
  intros H. induction l as [|h t IH]; cbn; [reflexivity|].
  rewrite H, IH. reflexivity.
Qed.

Lemma sort_by_ext {A : Type} (key key' : A -> Q) (l : list A) :
  (forall a b, Qle_bool (key a) (key b) = Qle_bool (key' a) (key' b)) ->
  sort_by key l = sort_by key' l.
Proof.
  intros H. induction l as [|x t IH]; cbn; [reflexivity|].
  rewrite IH. now apply insert_by_ext.
Qed.

Lemma Qle_bool_scale (k a b : Q) : 0 < k -> Qle_bool (k * a) (k * b) = Qle_bool a b.
Proof.
  intros Hk. destruct (Qle_bool a b) eqn:E.
  - apply Qle_bool_iff. apply Qle_bool_iff in E. now apply Qmult_le_l.
  - destruct (Qle_bool (k * a) (k * b)) eqn:E'; [|reflexivity].
    apply Qle_bool_iff in E'. apply Qmult_le_l in E'; [|assumption].
    apply Qle_bool_iff in E'. congruence.
Qed.

Lemma np_sort_scale (k : Q) (l : list Q) :
  0 < k -> np_sort (map (Qmult k) l) = map (Qmult k) (np_sort l).
Proof.
  intros Hk. unfold np_sort. rewrite sort_by_map. f_equal.
  apply sort_by_ext. intros a b. now apply Qle_bool_scale.
Qed.

Lemma Qsum_scale (k : Q) (l : list Q) : Qsum (map (Qmult k) l) == k * Qsum l.
Proof.
  induction l as [|a l IH]; cbn [map].
  - rewrite Qsum_nil. lra.
  - rewrite !Qsum_cons, IH. lra.
Qed.

Lemma inf_of_sign_scale (k x y : Q) :
  0 < k -> x == k * y -> inf_of_sign x = fmul (Fin k) (inf_of_sign y).
Proof.
  intros Hk Hx. unfold inf_of_sign.
  assert (Hkk : (k ?= 0) = Gt) by (apply (proj1 (Qgt_alt _ _)); exact Hk).
  assert (Hnk : (- k ?= 0) = Lt) by (apply (proj1 (Qlt_alt _ _)); clear - Hk; lra).
  destruct (Qcompare_spec y 0) as [Hy|Hy|Hy]; cbn [fmul]; unfold inf_of_sign.
  - assert (Hc : (x ?= 0) = Eq) by (apply (proj1 (Qeq_alt _ _)); clear - Hk Hx Hy; nra).
    now rewrite Hc.
  - assert (Hc : (x ?= 0) = Lt) by (apply (proj1 (Qlt_alt _ _)); clear - Hk Hx Hy; nra).
    now rewrite Hc, Hnk.
  - assert (Hc : (x ?= 0) = Gt) by (apply (proj1 (Qgt_alt _ _)); clear - Hk Hx Hy; nra).
    now rewrite Hc, Hkk.
Qed.

Lemma inf_of_sign_scale_same (k x y : Q) :
  0 < k -> x == k * y -> inf_of_sign x = inf_of_sign y.
Proof.
  intros Hk Hx. unfold inf_of_sign.
  destruct (Qcompare_spec y 0) as [Hy|Hy|Hy].
  - assert (Hc : (x ?= 0) = Eq) by (apply (proj1 (Qeq_alt _ _)); nra). now rewrite Hc.
  - assert (Hc : (x ?= 0) = Lt) by (apply (proj1 (Qlt_alt _ _)); nra). now rewrite Hc.
  - assert (Hc : (x ?= 0) = Gt) by (apply (proj1 (Qgt_alt _ _)); nra). now rewrite Hc.
Qed.

Lemma lorenz_share_scale (k : Q) (l : list Q) (p : Q) :
  0 < k -> feq (lorenz_share (map (Qmult k) l) p) (lorenz_share l p).
Proof.
  intros Hk. unfold lorenz_share.
  rewrite length_map, np_sort_scale, firstn_map by assumption.
  pose proof (Qsum_scale k (firstn (rank_of p (length l)) (np_sort l))) as HF.
  pose proof (Qsum_scale k l) as HT.
  set (F' := Qsum (map (Qmult k) (firstn (rank_of p (length l)) (np_sort l)))) in *.
  set (T' := Qsum (map (Qmult k) l)) in *.
  set (F := Qsum (firstn (rank_of p (length l)) (np_sort l))) in *.
  set (T := Qsum l) in *.
  unfold fdiv. destruct (Qeq_bool T 0) eqn:Hz.
  - apply Qeq_bool_iff in Hz.
    assert (Hz' : T' == 0) by nra.
    rewrite (proj2 (Qeq_bool_iff _ _) Hz').
    rewrite (inf_of_sign_scale_same k F' F Hk HF). apply feq_refl.
  - apply Qeq_bool_neq in Hz.
    assert (Hz' : ~ T' == 0) by (intros H; apply Hz; nra).
    destruct (Qeq_bool T' 0) eqn:Hb; [apply Qeq_bool_iff in Hb; contradiction|].
    cbn [feq]. rewrite HF, HT. field. split; [exact Hz|lra].
Qed.

Lemma np_mean_scale (k : Q) (l : list Q) :
  0 < k -> feq (np_mean (map (Qmult k) l)) (fmul (Fin k) (np_mean l)).
Proof.
  intros Hk. destruct l as [|a l]; [exact I|].
  rewrite (np_mean_fin (map (Qmult k) (a :: l))) by discriminate.
  rewrite (np_mean_fin (a :: l)) by discriminate.
  cbn [fmul feq]. rewrite Qsum_scale.
  assert (Hlen : Qlen (map (Qmult k) (a :: l)) = Qlen (a :: l)).
  { unfold Qlen. now rewrite length_map. }
  rewrite Hlen. pose proof (Qlen_pos (a :: l) ltac:(discriminate)).
  field. lra.
Qed.

Lemma fdiv_scale (k : Q) (x x' y : npfloat) :
  0 < k -> feq x' (fmul (Fin k) x) -> (x = NaN \/ exists a, x = Fin a) ->
  (y = NaN \/ exists b, y = Fin b) ->
  feq (fdiv x' y) (fmul (Fin k) (fdiv x y)).
Proof.
  intros Hk Hx [->|[a ->]] [->|[b ->]]; cbn [fmul] in Hx;
    destruct x' as [a'| | |]; cbn [feq] in Hx; try contradiction; cbn [fdiv fmul];
    try exact I.
  destruct (Qeq_bool b 0) eqn:Hz.
  - rewrite (inf_of_sign_scale k a' a Hk Hx). apply feq_refl.
  - apply Qeq_bool_neq in Hz. cbn [fmul feq]. rewrite Hx. field. exact Hz.
Qed.

Lemma np_mean_cases (l : list Q) : np_mean l = NaN \/ exists a, np_mean l = Fin a.
Proof.
  destruct l as [|x l]; [now left|right].
  rewrite np_mean_fin by discriminate. eexists; reflexivity.
Qed.



(** ** mystr: four decimals *)

Lemma round_half_even_close (x : Q) :
  - (1 # 2) <= inject_Z (round_half_even x) - x <= 1 # 2.
Proof.
  unfold round_half_even. pose proof (Qfloor_le x) as Hlo.
  pose proof (Qlt_floor x) as Hhi. rewrite inject_Z_plus in Hhi.
  change (inject_Z 1) with 1 in Hhi.
  set (f := Qfloor x) in *.
  destruct (Qcompare_spec (x - inject_Z f) (1 # 2)) as [He|Hl|Hg].
  - destruct (Z.even f).
    + lra.
    + rewrite inject_Z_plus. change (inject_Z 1) with 1. lra.
  - lra.
  - rewrite inject_Z_plus. change (inject_Z 1) with 1. lra.
Qed.

Lemma round_half_even_nonneg (x : Q) : 0 <= x -> (0 <= round_half_even x)%Z.
Proof.
  intros Hx. unfold round_half_even.
  assert (Hf : (0 <= Qfloor x)%Z).
  { change 0%Z with (Qfloor 0). now apply Qfloor_resp_le. }
  destruct ((x - inject_Z (Qfloor x)) ?= (1 # 2)); [destruct (Z.even _)| |]; lia.
Qed.

Lemma digit_is_digit (d : Z) : (0 <= d < 10)%Z -> is_digit (digit d).
Proof.
  intros Hd. unfold is_digit, digit.
  rewrite Ascii.N_ascii_embedding by lia. lia.
Qed.

Section FormattingFacts.

Import String Ascii.
Local Open Scope string_scope.

Lemma integer_digits_nonempty (v : Z) : integer_digits v <> "".
Proof.
  unfold integer_digits, DecimalString.NilZero.string_of_uint.
  destruct (N.to_uint (Z.to_N v)); cbn; discriminate.
Qed.

(** The notebook's wealth ratio, a tie, a negative number that rounds to
    zero, and the three special values. *)
Example mystr_examples :
  mystr (Fin (5722878745432178 # 1000000000000000)) = "5.7229" /\
  mystr (Fin 1) = "1.0000" /\
  mystr (Fin (1 # 32)) = "0.0312" /\
  mystr (Fin (3 # 32)) = "0.0938" /\
  mystr (Fin (- (1 # 100000))) = "-0.0000" /\
  mystr (Fin (- (12345678 # 100))) = "-123456.7800" /\
  mystr NaN = "nan" /\ mystr PInf = "inf" /\ mystr NInf = "-inf".
Proof. repeat split; reflexivity. Qed.


End FormattingFacts.
